(** * Mastodon digest: the timeline collector and the digest selector

    A shallow embedding of [run.py]: [fetch_posts_and_boosts] (the paginated
    collection loop with its deduplication set and its two accumulators),
    the percentile selection of [run], and the configuration checks of the
    [__main__] block, followed by the properties of these functions. *)

From Stdlib Require Import ZArith QArith Lia.
From stdpp Require Import base decidable option list gmap sets strings pretty.

Local Open Scope Z_scope.

(** ** Remote data: statuses as the timeline returns them *)

(** [post["account"]], with the fields the pipeline reads. *)
Record Account := mkAccount {
  acct : string;
  followers_count : Z
}.

(** A status dictionary of the remote API.  [reblog] is [None] for an
    original post and holds the boosted status for a boost. *)
#[local] Unset Elimination Schemes.
Inductive Status := mkStatus {
  url : string;
  account : Account;
  reblogs_count : Z;
  favourites_count : Z;
  replies_count : Z;
  reblogged : bool;
  favourited : bool;
  bookmarked : bool;
  reblog : option Status
}.
#[local] Set Elimination Schemes.

(** Modelled from the spec: [models.ScoredPost] is not part of the sources at
    hand.  The spec's Post Record is built once from a remote post, keeps its
    data ([info], which [run.py] reads as [scored_post.info[...]]), takes its
    identity URL from it and computes its score on demand through the scorer
    it is handed. *)
Module ScoredPost.
Record t := wrap { info : Status }.

Definition url (p : t) : string := url (info p).

(** Scores are finite, non-negative reals; every finite float is a
    rational, and comparing two of them is exact. *)
Definition get_score (scorer : t → Q) (p : t) : Q := scorer p.
End ScoredPost.

(** The three capabilities [fetch_posts_and_boosts] uses of the client.
    [timeline hours] lists the pages in the order the pagination hands them
    out: the head is the answer of [timeline(min_id=start)], each further
    element the answer of the next [fetch_previous], which returns [None]
    when the list is exhausted.  [filters_apply response] stands for
    [filters_apply(response, filters, "home")] with the client's own
    [filters()]. *)
Record Mastodon := mkMastodon {
  timeline : Z → list (list Status);
  filters_apply : list Status → list Status
}.

(** ** The collector, [fetch_posts_and_boosts] *)

Definition TIMELINE_LIMIT : Z := 1000.

(** The local variables of the function that live across iterations. *)
Record Collector := mkCollector {
  posts : list ScoredPost.t;
  boosts : list ScoredPost.t;
  seen_post_urls : gset string;
  total_posts_seen : Z
}.

Definition start_state : Collector :=
  {| posts := []; boosts := []; seen_post_urls := ∅; total_posts_seen := 0 |}.

(** [if post["reblog"] is not None: post = post["reblog"]; boost = True] *)
Definition unwrap (post : Status) : Status * bool :=
  match reblog post with
  | Some boosted => (boosted, true)
  | None => (post, false)
  end.

(** The condition of the inner [if]: the local filters. *)
Definition local_filters (mastodon_username : string) (scored_post : ScoredPost.t) : bool :=
  let i := ScoredPost.info scored_post in
  negb (reblogged i) && negb (favourited i) && negb (bookmarked i)
  && negb (String.eqb (acct (account i)) mastodon_username).

(** One iteration of [for post in filtered_response]. *)
Definition examine (mastodon_username : string) (st : Collector) (post : Status) : Collector :=
  let total := total_posts_seen st + 1 in
  let '(post, boost) := unwrap post in
  let scored_post := ScoredPost.wrap post in
  let unchanged :=
    {| posts := posts st;
       boosts := boosts st;
       seen_post_urls := seen_post_urls st;
       total_posts_seen := total |} in
  if bool_decide (ScoredPost.url scored_post ∉ seen_post_urls st) then
    if local_filters mastodon_username scored_post then
      if boost then
        {| posts := posts st;
           boosts := boosts st ++ [scored_post];
           seen_post_urls := {[ScoredPost.url scored_post]} ∪ seen_post_urls st;
           total_posts_seen := total |}
      else
        {| posts := posts st ++ [scored_post];
           boosts := boosts st;
           seen_post_urls := {[ScoredPost.url scored_post]} ∪ seen_post_urls st;
           total_posts_seen := total |}
    else unchanged
  else unchanged.

(** The body of the [while]: filter the page, then run the [for] loop. *)
Definition process_page (client : Mastodon) (mastodon_username : string)
    (st : Collector) (response : list Status) : Collector :=
  fold_left (examine mastodon_username) (filters_apply client response) st.

(** Truth value of a response: [None] and the empty page are false. *)
Definition truthy (response : list Status) : bool :=
  match response with [] => false | _ :: _ => true end.

(** [while response and total_posts_seen < TIMELINE_LIMIT]; [pages] is the
    current response followed by what [fetch_previous] will still return. *)
Fixpoint fetch_loop (client : Mastodon) (mastodon_username : string)
    (pages : list (list Status)) (st : Collector) : Collector :=
  match pages with
  | [] => st
  | response :: older =>
      if truthy response && (total_posts_seen st <? TIMELINE_LIMIT)
      then fetch_loop client mastodon_username older
             (process_page client mastodon_username st response)
      else st
  end.

Definition collect (hours : Z) (mastodon_client : Mastodon)
    (mastodon_username : string) : Collector :=
  fetch_loop mastodon_client mastodon_username (timeline mastodon_client hours) start_state.

Definition fetch_posts_and_boosts (hours : Z) (mastodon_client : Mastodon)
    (mastodon_username : string) : list ScoredPost.t * list ScoredPost.t :=
  let st := collect hours mastodon_client mastodon_username in
  (posts st, boosts st).

(** The pages the loop passes to [filters_apply], in order: the responses for
    which the [while] condition held. *)
Fixpoint fetched_pages (client : Mastodon) (mastodon_username : string)
    (pages : list (list Status)) (st : Collector) : list (list Status) :=
  match pages with
  | [] => []
  | response :: older =>
      if truthy response && (total_posts_seen st <? TIMELINE_LIMIT)
      then response :: fetched_pages client mastodon_username older
                         (process_page client mastodon_username st response)
      else []
  end.

(** The entries the [for] loop iterates over during a whole run. *)
Definition examined (hours : Z) (client : Mastodon) (mastodon_username : string)
    : list Status :=
  concat (map (filters_apply client)
            (fetched_pages client mastodon_username (timeline client hours) start_state)).

(** ** The selector: the percentile filter of [run] *)

Definition Qltb (x y : Q) : bool := negb (Qle_bool y x).

(** Number of elements of the sample that satisfy a test
    ([np.count_nonzero] of a comparison). *)
Definition count (test : Q → bool) (a : list Q) : Z :=
  Z.of_nat (length (List.filter test a)).

(** [scipy.stats.percentileofscore(a, score)] with its default kind, "rank":
    with [left] the number of sample values below [score] and [right] the
    number of those not above it, [(left + right + (left < right)) * 50 / n].
    The empty sample has no rank (the library divides by [n = 0] there and
    answers nan); [None] stands for that case. *)
Definition percentileofscore (a : list Q) (score : Q) : option Q :=
  let n := Z.of_nat (length a) in
  if n =? 0 then None
  else
    let left := count (fun x => Qltb x score) a in
    let right := count (fun x => Qle_bool x score) a in
    let plus1 := if left <? right then 1 else 0 in
    Some (inject_Z (left + right + plus1) * (50 / inject_Z n))%Q.

(** [percentile > threshold]; a comparison with nan is false. *)
Definition exceeds (percentile : option Q) (threshold : Z) : bool :=
  match percentile with
  | Some pct => Qltb (inject_Z threshold) pct
  | None => false
  end.

(** Lines 89 to 100 of [run]: the two score samples and the two list
    comprehensions. *)
Definition threshold_lists (scorer : ScoredPost.t → Q) (threshold : Z)
    (posts boosts : list ScoredPost.t) : list ScoredPost.t * list ScoredPost.t :=
  let all_post_scores := map (ScoredPost.get_score scorer) posts in
  let all_boost_scores := map (ScoredPost.get_score scorer) boosts in
  let threshold_posts :=
    List.filter
      (fun p => exceeds (percentileofscore all_post_scores (ScoredPost.get_score scorer p))
                        threshold)
      posts in
  let threshold_boosts :=
    List.filter
      (fun p => exceeds (percentileofscore all_boost_scores (ScoredPost.get_score scorer p))
                        threshold)
      boosts in
  (threshold_posts, threshold_boosts).

(** [run] up to the rendering: collect, then select in each category. *)
Definition run_selection (hours : Z) (scorer : ScoredPost.t → Q) (threshold : Z)
    (mst : Mastodon) (mastodon_username : string)
    : list ScoredPost.t * list ScoredPost.t :=
  let '(posts, boosts) := fetch_posts_and_boosts hours mst mastodon_username in
  threshold_lists scorer threshold posts boosts.

(** The selection of one category on its own, as both comprehensions
    perform it. *)
Definition select (scorer : ScoredPost.t → Q) (threshold : Z)
    (items : list ScoredPost.t) : list ScoredPost.t :=
  let scores := map (ScoredPost.get_score scorer) items in
  List.filter
    (fun p => exceeds (percentileofscore scores (ScoredPost.get_score scorer p)) threshold)
    items.

(** The percentile rank of an item of a category, as the selector sees it. *)
Definition percentile_rank (scorer : ScoredPost.t → Q) (items : list ScoredPost.t)
    (p : ScoredPost.t) : option Q :=
  percentileofscore (map (ScoredPost.get_score scorer) items)
                    (ScoredPost.get_score scorer p).

(** ** The [__main__] block: command line, environment, registries *)

(** The values given on the command line after [-n], [-s] and [-t], [None]
    for an option left out.  The [-n] value is taken after its [type=int]
    conversion; the built-in help action of the parser is left out. *)
Record CommandLine := mkCommandLine {
  opt_n : option Z;
  opt_s : option string;
  opt_t : option string
}.

(** What [parse_args] returns. *)
Record Namespace := mkNamespace {
  hours : Z;
  scorer : string;
  threshold : string
}.

(** How the block ends.  [ArgparseError] is the parser's own exit on a value
    outside [choices] (usage message, status 2), [SysExit] a [sys.exit] with
    a message (status 1), [KeyError] a failed registry subscript.  [Run] is
    the call of [run], the only place where a client is built and the
    network is used. *)
Inductive Outcome {S : Type} :=
| ArgparseError
| PrintHelp
| SysExit (message : string)
| KeyError (key : string)
| Run (hours : Z) (scorer : S) (threshold : Z)
      (mastodon_token mastodon_base_url mastodon_username : string).
Arguments Outcome : clear implicits.

Definition fatal {S : Type} (o : Outcome S) : bool :=
  match o with
  | ArgparseError | SysExit _ | KeyError _ => true
  | PrintHelp | Run _ _ _ _ _ _ => false
  end.

Definition network_activity {S : Type} (o : Outcome S) : bool :=
  match o with
  | Run _ _ _ _ _ _ => true
  | _ => false
  end.

(** One option with [choices] and a [default]: a given value must be among
    the choices, the default is taken as it is. *)
Definition parse_option {A : Type} (given : option A) (choice : A → bool) (default : A)
    : option A :=
  match given with
  | None => Some default
  | Some v => if choice v then Some v else None
  end.

Section Main.
(** The registries come from [get_scorers] and [get_thresholds], which are
    not part of the sources at hand; [S] is the type of a scorer class. *)
Context {S : Type}.
Variable scorers : gmap string S.
Variable thresholds : gmap string Z.

Definition parse_args (cl : CommandLine) : option Namespace :=
  h ← parse_option (opt_n cl) (fun n => (1 <=? n) && (n <? 25)) 12;
  s ← parse_option (opt_s cl) (fun k => bool_decide (k ∈ dom scorers)) "SimpleWeighted"%string;
  t ← parse_option (opt_t cl) (fun k => bool_decide (k ∈ dom thresholds)) "normal"%string;
  Some {| hours := h; scorer := s; threshold := t |}.

(** [not os.getenv(name)]: unset, or set to the empty string. *)
Definition missing (value : option string) : bool :=
  match value with
  | None => true
  | Some v => String.eqb v EmptyString
  end.

Definition main (cl : CommandLine) (environ : gmap string string) : Outcome S :=
  match parse_args cl with
  | None => ArgparseError
  | Some args =>
      if hours args =? 0 then PrintHelp
      else
        let mastodon_token := environ !! "MASTODON_TOKEN"%string in
        let mastodon_base_url := environ !! "MASTODON_BASE_URL"%string in
        let mastodon_username := environ !! "MASTODON_USERNAME"%string in
        if missing mastodon_token
        then SysExit "Missing environment variable: MASTODON_TOKEN"
        else if missing mastodon_base_url
        then SysExit "Missing environment variable: MASTODON_BASE_URL"
        else if missing mastodon_username
        then SysExit "Missing environment variable: MASTODON_USERNAME"
        else
          match scorers !! scorer args with
          | None => KeyError (scorer args)
          | Some sc =>
              match thresholds !! threshold args with
              | None => KeyError (threshold args)
              | Some th =>
                  Run (hours args) sc th
                      (default EmptyString mastodon_token)
                      (default EmptyString mastodon_base_url)
                      (default EmptyString mastodon_username)
              end
          end
  end.
End Main.

(** Modelled from the spec: [thresholds.get_thresholds] is not part of the
    sources at hand; the spec fixes the registry as lax, normal and strict
    with the percentiles 90, 95 and 98. *)
Definition get_thresholds : gmap string Z :=
  {[ "lax"%string := 90; "normal"%string := 95; "strict"%string := 98 ]}.

(** ** Notions used in the statements *)

(** The union of the two returned lists. *)
Definition collected (st : Collector) : list ScoredPost.t := posts st ++ boosts st.

(** Number of Post Records of a list that carry a given identity URL. *)
Definition occurrences (u : string) (l : list ScoredPost.t) : nat :=
  length (List.filter (fun p => String.eqb (ScoredPost.url p) u) l).

(** The underlying post of a timeline entry: the entry itself, or the post
    it boosts. *)
Definition underlying (entry : Status) : Status := fst (unwrap entry).

(** What holds of the accumulators after every iteration: the set of seen
    URLs is the set of URLs of the collected records, no URL is collected
    twice, and every collected record passed the local filters. *)
Record consistent (mastodon_username : string) (st : Collector) : Prop := mkConsistent {
  seen_collected :
    ∀ u, u ∈ seen_post_urls st ↔ In u (map ScoredPost.url (collected st));
  urls_NoDup : List.NoDup (map ScoredPost.url (collected st));
  all_pass : ∀ p, In p (collected st) → local_filters mastodon_username p = true
}.

(** Where the records of the two lists come from: a record of [posts] is an
    entry that is no boost, a record of [boosts] is the post some entry
    boosts. *)
Definition from_entries (entries : list Status) (st : Collector) : Prop :=
  (∀ p, In p (posts st) →
        In (ScoredPost.info p) entries ∧ reblog (ScoredPost.info p) = None)
  ∧ (∀ p, In p (boosts st) →
          ∃ e, In e entries ∧ reblog e = Some (ScoredPost.info p)).

(** The raw entries of the pages the loop fetched, before the server-side
    filters are applied to them. *)
Definition raw_examined (hours : Z) (client : Mastodon) (mastodon_username : string)
    : list Status :=
  concat (fetched_pages client mastodon_username (timeline client hours) start_state).

(** The deduplication property read to the letter, at one run: a post that
    the timeline holds once as an entry of its own and also as the target of
    each of some distinct boosts has exactly one record in the two lists
    together. *)
Definition exactly_one_record (hours : Z) (client : Mastodon)
    (mastodon_username : string) : Prop :=
  ∀ (post : Status) (boosters : list Status),
    In post (concat (timeline client hours)) → reblog post = None →
    List.NoDup boosters →
    (∀ b, In b boosters → In b (concat (timeline client hours)) ∧ reblog b = Some post) →
    let '(ps, bs) := fetch_posts_and_boosts hours client mastodon_username in
    occurrences (url post) (ps ++ bs) = 1%nat.

(** The number of pages the loop fetches, read off the counter and the
    sizes of the filtered pages alone. *)
Fixpoint fetch_count (client : Mastodon) (pages : list (list Status)) (total : Z) : nat :=
  match pages with
  | [] => 0
  | response :: older =>
      if truthy response && (total <? TIMELINE_LIMIT)
      then S (fetch_count client older
                (total + Z.of_nat (length (filters_apply client response))))
      else 0
  end.

(** ** Sample timelines *)

(** A client without filter rules, whose pagination hands out [pages]. *)
Definition unfiltered (pages : list (list Status)) : Mastodon :=
  {| timeline := fun _ => pages; filters_apply := fun response => response |}.

(** A client whose filter rules hide every entry. *)
Definition all_hidden (pages : list (list Status)) : Mastodon :=
  {| timeline := fun _ => pages; filters_apply := fun _ => [] |}.

Definition post_by (author : string) (n : nat) (engagement : Z) : Status :=
  {| url := "https://example.social/@" +:+ author +:+ "/" +:+ pretty n;
     account := {| acct := author; followers_count := 100 |};
     reblogs_count := engagement; favourites_count := engagement; replies_count := 0;
     reblogged := false; favourited := false; bookmarked := false;
     reblog := None |}.

Definition boost_by (booster : string) (n : nat) (boosted : Status) : Status :=
  {| url := "https://example.social/@" +:+ booster +:+ "/" +:+ pretty n;
     account := {| acct := booster; followers_count := 100 |};
     reblogs_count := 0; favourites_count := 0; replies_count := 0;
     reblogged := false; favourited := false; bookmarked := false;
     reblog := Some boosted |}.

(** [k] distinct posts of one author, numbered from [first]. *)
Definition page_of (first k : nat) : list Status :=
  map (fun n => post_by "alice" n 1) (seq first k).

(** A page of 19 entries followed by 50 pages of 20. *)
Definition long_timeline : list (list Status) :=
  page_of 0 19 :: map (fun i => page_of (19 + 20 * i) 20) (seq 0 50).

(** The viewer's own post, once on its own and boosted by two accounts. *)
Definition own_post : Status := post_by "me" 7 3.
Definition own_post_timeline : list (list Status) :=
  [[boost_by "bob" 1 own_post; boost_by "carol" 2 own_post; own_post]].

(** Another account's post, once on its own and boosted by two accounts. *)
Definition alice_post : Status := post_by "alice" 7 3.
Definition alice_post_timeline : list (list Status) :=
  [[boost_by "bob" 1 alice_post; boost_by "carol" 2 alice_post; alice_post]].



(** A scorer on the sample records: the number of boosts. *)
Definition by_boosts (p : ScoredPost.t) : Q := inject_Z (reblogs_count (ScoredPost.info p)).

(** The same with every score doubled. *)
Definition by_boosts_twice (p : ScoredPost.t) : Q :=
  (2 * inject_Z (reblogs_count (ScoredPost.info p)))%Q.

(** Twenty records of rising engagement. *)
Definition twenty_posts : list ScoredPost.t :=
  map (fun n => ScoredPost.wrap (post_by "alice" n (Z.of_nat n))) (seq 1 20).

(** A registry of two scorers, named as the help text of [-s] names them,
    and an environment that lacks the viewer's name. *)
Definition two_scorers : gmap string (ScoredPost.t → Q) :=
  {[ "SimpleWeighted"%string := by_boosts; "Simple"%string := by_boosts_twice ]}.

Definition no_username : gmap string string :=
  {[ "MASTODON_TOKEN"%string := "secret"%string;
     "MASTODON_BASE_URL"%string := "https://example.social"%string ]}.

(** ** Notions used for the rest of the pipeline *)

(** The same client with another pagination. *)
Definition with_pages (client : Mastodon) (pages : list (list Status)) : Mastodon :=
  {| timeline := fun _ => pages; filters_apply := filters_apply client |}.

(** Number of entries the server-side filters leave on some pages. *)
Definition filtered_size (client : Mastodon) (pages : list (list Status)) : Z :=
  Z.of_nat (length (concat (map (filters_apply client) pages))).

(** The integer that [percentileofscore] scales by [50 / n]. *)
Definition rank_numerator (a : list Q) (score : Q) : Z :=
  let left := count (fun x => Qltb x score) a in
  let right := count (fun x => Qle_bool x score) a in
  left + right + (if left <? right then 1 else 0).

(** An environment with the three variables set. *)
Definition full_environment : gmap string string :=
  {[ "MASTODON_TOKEN"%string := "secret"%string;
     "MASTODON_BASE_URL"%string := "https://example.social"%string;
     "MASTODON_USERNAME"%string := "me"%string ]}.

(** ** The document, lines 102 to 154 of [run] *)

(** The double quote character, for the attribute values of the markup. *)
Definition dq : string := String (Ascii.ascii_of_nat 34) EmptyString.

Module Html.
Definition html_open : string := "<!DOCTYPE html><html>".
Definition head : string :=
  "<head><script src=" +:+ dq +:+ "https://static-cdn.mastodon.social/embed.js" +:+ dq
  +:+ " async=" +:+ dq +:+ "async" +:+ dq +:+ "></script></head>".
Definition body_open : string :=
  "<body bgcolor=" +:+ dq +:+ "#292c36" +:+ dq +:+ " style=" +:+ dq
  +:+ "font-family: Arial, sans-serif;" +:+ dq +:+ ">".
Definition container_open : string :=
  "<div id=" +:+ dq +:+ "container" +:+ dq +:+ " style=" +:+ dq
  +:+ "margin: auto; max-width: 640px; padding: 10px; text-align: center;" +:+ dq +:+ ">".
Definition title : string :=
  "<h1 style=" +:+ dq +:+ "color:white;" +:+ dq +:+ ">Mastodon Digest</h1>".
Definition subtitle (hours : Z) : string :=
  "<h3 style=" +:+ dq +:+ "color:#D3D3D3;" +:+ dq
  +:+ "><i>Sourced from your timeline over the past " +:+ pretty hours
  +:+ " hours</i></h2>".
Definition posts_header : string :=
  "<h2 style=" +:+ dq +:+ "color:white;" +:+ dq
  +:+ ">Here are some popular posts you may have missed:</h2>".
Definition boosts_header : string :=
  "<h2 style=" +:+ dq +:+ "color:white;" +:+ dq
  +:+ ">Here are some popular boosts you may have missed:</h2>".
Definition container_close : string := "</div>".
Definition body_close : string := "</body>".
Definition html_close : string := "</html>".
End Html.

Section Document.
(** [ScoredPost.get_home_url] belongs to [models.py], which is not part of
    the sources at hand; the document is built for any such function. *)
Variable get_home_url : ScoredPost.t → string → string.
Variable mastodon_base_url : string.

(** What one iteration of the inner loop appends to [content[1]]. *)
Definition post_block (post : ScoredPost.t) : string :=
  "<div class=" +:+ dq +:+ "post" +:+ dq +:+ "><a style=" +:+ dq +:+ "color:white;" +:+ dq
  +:+ " href='" +:+ get_home_url post mastodon_base_url +:+ "' target=" +:+ dq
  +:+ "_blank" +:+ dq +:+ ">Home Link</a><span style=" +:+ dq +:+ "color:white;" +:+ dq
  +:+ "> | </span><a style=" +:+ dq +:+ "color:white;" +:+ dq +:+ " href='"
  +:+ ScoredPost.url post +:+ "' target=" +:+ dq +:+ "_blank" +:+ dq
  +:+ ">Original Link</a><br /><iframe src='" +:+ ScoredPost.url post
  +:+ "/embed' class=" +:+ dq +:+ "mastodon-embed" +:+ dq +:+ " style=" +:+ dq
  +:+ "max-width: 100%; border: 0" +:+ dq +:+ " width=" +:+ dq +:+ "400" +:+ dq
  +:+ " allowfullscreen=" +:+ dq +:+ "allowfullscreen" +:+ dq
  +:+ "></iframe><br /><br /></div>".

(** [for post in content[0]: content[1] += ...], from the text so far. *)
Definition add_blocks (text : string) (selected : list ScoredPost.t) : string :=
  fold_left (fun text post => text +:+ post_block post) selected text.

(** The inner loop run on one entry [[selected, EmptyString]] of
    [content_collection]. *)
Definition content (selected : list ScoredPost.t) : string :=
  add_blocks EmptyString selected.

Definition output_html (hours : Z) (threshold_posts threshold_boosts : list ScoredPost.t)
    : string :=
  Html.html_open +:+ Html.head +:+ Html.body_open +:+ Html.container_open
  +:+ Html.title +:+ Html.subtitle hours +:+ Html.posts_header
  +:+ content threshold_posts
  +:+ Html.boosts_header
  +:+ content threshold_boosts
  +:+ Html.container_close +:+ Html.body_close +:+ Html.html_close.

(** [run] up to the text it writes to the temporary file. *)
Definition run_document (hours : Z) (scorer : ScoredPost.t → Q) (threshold : Z)
    (mst : Mastodon) (mastodon_username : string) : string :=
  let '(threshold_posts, threshold_boosts) :=
    run_selection hours scorer threshold mst mastodon_username in
  output_html hours threshold_posts threshold_boosts.
End Document.

(** A stand-in for [get_home_url] on the samples. *)
Definition sample_home_url (post : ScoredPost.t) (base : string) : string :=
  base +:+ "/@" +:+ acct (account (ScoredPost.info post)).

(** A piece of text occurs in a text. *)
Definition occurs (piece text : string) : Prop :=
  ∃ before after, text = before +:+ piece +:+ after.

(** * Properties *)

(** ** The collector as one fold over the examined entries *)

Section CollectorFacts.
Variable client : Mastodon.
Variable mastodon_username : string.

Local Abbreviation step := (examine mastodon_username).
Local Abbreviation page := (process_page client mastodon_username).

Lemma examine_total st post :
  total_posts_seen (step st post) = total_posts_seen st + 1.
Proof.
  unfold examine. destruct (unwrap post) as [p b]. cbv zeta.
  destruct (bool_decide _); [destruct (local_filters _ _); [destruct b|]|];
    reflexivity.
Qed.

Lemma fold_examine_total entries st :
  total_posts_seen (fold_left step entries st)
  = total_posts_seen st + Z.of_nat (length entries).
Proof.
  revert st. induction entries as [|e entries IH]; intros st.
  - simpl. lia.
  - cbn [fold_left length]. rewrite IH, examine_total. lia.
Qed.

Lemma process_page_total st response :
  total_posts_seen (page st response)
  = total_posts_seen st + Z.of_nat (length (filters_apply client response)).
Proof. apply fold_examine_total. Qed.

(** The loop is the fold of the page body over the fetched pages ... *)
Lemma fetch_loop_pages pages st :
  fetch_loop client mastodon_username pages st
  = fold_left page (fetched_pages client mastodon_username pages st) st.
Proof.
  revert st. induction pages as [|response older IH]; intros st; simpl.
  - reflexivity.
  - destruct (truthy response && _); simpl; [apply IH | reflexivity].
Qed.

(** ... hence the fold of [examine] over all their filtered entries. *)
Lemma fold_pages_entries fetched st :
  fold_left page fetched st
  = fold_left step (concat (map (filters_apply client) fetched)) st.
Proof.
  revert st. induction fetched as [|response fetched IH]; intros st; simpl.
  - reflexivity.
  - rewrite fold_left_app. apply IH.
Qed.

Lemma fetch_loop_entries pages st :
  fetch_loop client mastodon_username pages st
  = fold_left step
      (concat (map (filters_apply client)
                 (fetched_pages client mastodon_username pages st))) st.
Proof. rewrite fetch_loop_pages. apply fold_pages_entries. Qed.

(** Every fetched page but the last was followed by a loop test that
    still found the counter below the limit. *)
Lemma fetched_before_last pages st :
  fetched_pages client mastodon_username pages st = []
  ∨ total_posts_seen st
    + Z.of_nat (length (concat (map (filters_apply client)
                  (removelast (fetched_pages client mastodon_username pages st)))))
    < TIMELINE_LIMIT.
Proof.
  revert st. induction pages as [|response older IH]; intros st; simpl.
  - by left.
  - destruct (truthy response && _) eqn:Hc; [right | by left].
    apply andb_true_iff in Hc as [_ Hlt%Z.ltb_lt].
    destruct (IH (page st response)) as [Hnil | Hlt'].
    + rewrite Hnil. simpl. lia.
    + destruct (fetched_pages _ _ older _) as [|next rest] eqn:Hf.
      * simpl. lia.
      * remember (next :: rest) as fetched.
        assert (removelast (response :: fetched) = response :: removelast fetched) as ->
          by (subst fetched; reflexivity).
        cbn [map concat]. rewrite length_app.
        rewrite process_page_total in Hlt'. lia.
Qed.

(** The fetched pages are a prefix of the pages, and how long a prefix
    depends on the counter and the page sizes only. *)
Lemma fetched_pages_take pages st :
  fetched_pages client mastodon_username pages st
  = take (fetch_count client pages (total_posts_seen st)) pages.
Proof.
  revert st. induction pages as [|response older IH]; intros st; simpl.
  - reflexivity.
  - destruct (truthy response && _); [|reflexivity].
    simpl. f_equal. rewrite IH, process_page_total. reflexivity.
Qed.
(** Where the loop stops: at the end of the pagination, before an empty
    page, or with the counter at the limit or beyond it. *)
Lemma fetched_pages_stop pages st :
  ∃ rest,
    pages = fetched_pages client mastodon_username pages st ++ rest
    ∧ (rest = [] ∨ hd [] rest = []
       ∨ TIMELINE_LIMIT
         <= total_posts_seen (fetch_loop client mastodon_username pages st)).
Proof.
  revert st. induction pages as [|response older IH]; intros st; simpl.
  - exists []. auto.
  - destruct (truthy response && _) eqn:Hc.
    + destruct (IH (page st response)) as (rest & Hrest & Hstop).
      exists rest. split; [simpl; by f_equal | exact Hstop].
    + exists (response :: older). split; [reflexivity|].
      apply andb_false_iff in Hc as [Hempty | Hfull].
      * right. left. by destruct response.
      * right. right. apply Z.ltb_ge in Hfull. exact Hfull.
Qed.
End CollectorFacts.

(** ** Deduplication and local exclusion: what every iteration preserves *)

Section Invariant.
Variable mastodon_username : string.

Local Abbreviation step := (examine mastodon_username).

(** An iteration either leaves the lists alone or appends one record that
    passed both tests. *)
Lemma examine_cases st entry :
  let p := ScoredPost.wrap (underlying entry) in
  (posts (step st entry) = posts st ∧ boosts (step st entry) = boosts st
   ∧ seen_post_urls (step st entry) = seen_post_urls st
   ∧ (ScoredPost.url p ∈ seen_post_urls st ∨ local_filters mastodon_username p = false))
  ∨ ((ScoredPost.url p ∉ seen_post_urls st) ∧ local_filters mastodon_username p = true
     ∧ seen_post_urls (step st entry) = {[ScoredPost.url p]} ∪ seen_post_urls st
     ∧ ((reblog entry = None ∧ posts (step st entry) = posts st ++ [p]
         ∧ boosts (step st entry) = boosts st)
        ∨ (reblog entry = Some (underlying entry) ∧ posts (step st entry) = posts st
           ∧ boosts (step st entry) = boosts st ++ [p]))).
Proof.
  unfold underlying, examine, unwrap.
  destruct (reblog entry) as [boosted|] eqn:Hr; cbn [fst]; cbv zeta;
    destruct (bool_decide _) eqn:Hseen;
    try destruct (local_filters _ _) eqn:Hpass; cbn [posts boosts seen_post_urls];
    try apply bool_decide_eq_true_1 in Hseen;
    try (apply bool_decide_eq_false_1 in Hseen; apply dec_stable in Hseen);
    intuition auto.
Qed.

Lemma collected_snoc_posts st p :
  Permutation ((posts st ++ [p]) ++ boosts st) (p :: collected st).
Proof.
  unfold collected. rewrite <- app_assoc. simpl.
  symmetry. apply Permutation_middle.
Qed.

Lemma collected_snoc_boosts st p :
  Permutation (posts st ++ boosts st ++ [p]) (p :: collected st).
Proof.
  unfold collected. rewrite app_assoc.
  symmetry. apply Permutation_cons_append.
Qed.

Lemma examine_collected st entry :
  collected (step st entry) = collected st
  ∨ Permutation (collected (step st entry))
      (ScoredPost.wrap (underlying entry) :: collected st).
Proof.
  destruct (examine_cases st entry) as [(Hp & Hb & _)|(_ & _ & _ & [H|H])].
  - left. unfold collected. by rewrite Hp, Hb.
  - right. destruct H as (_ & Hp & Hb). unfold collected at 1. rewrite Hp, Hb.
    apply collected_snoc_posts.
  - right. destruct H as (_ & Hp & Hb). unfold collected at 1. rewrite Hp, Hb.
    apply collected_snoc_boosts.
Qed.

Lemma examine_consistent st entry :
  consistent mastodon_username st → consistent mastodon_username (step st entry).
Proof.
  intros [Hseen Hnd Hpass].
  pose proof (examine_cases st entry) as Hc. cbv zeta in Hc.
  set (p := ScoredPost.wrap (underlying entry)) in *.
  destruct Hc as [(Hp & Hb & Hs & _)|(Hfresh & Hok & Hs & Hlists)].
  - assert (collected (step st entry) = collected st) as Hcol
      by (unfold collected; by rewrite Hp, Hb).
    split; rewrite ?Hcol, ?Hs; auto.
  - assert (Permutation (collected (step st entry)) (p :: collected st)) as Hperm.
    { destruct Hlists as [(_ & Hp & Hb)|(_ & Hp & Hb)];
        unfold collected at 1; rewrite Hp, Hb;
        [apply collected_snoc_posts | apply collected_snoc_boosts]. }
    split.
    + intros u. rewrite Hs, elem_of_union, elem_of_singleton, Hseen.
      rewrite (Permutation_map ScoredPost.url Hperm) at 1. simpl.
      intuition auto.
    + apply (Permutation_NoDup (l := map ScoredPost.url (p :: collected st))).
      * symmetry. by apply Permutation_map.
      * simpl. constructor; [|done]. by rewrite <- Hseen.
    + intros q Hq. apply (Permutation_in _ Hperm) in Hq as [<-|Hq]; auto.
Qed.

Lemma start_consistent : consistent mastodon_username start_state.
Proof.
  split; simpl.
  - intros u. split; [set_solver | tauto].
  - constructor.
  - tauto.
Qed.

Lemma fold_examine_consistent entries st :
  consistent mastodon_username st →
  consistent mastodon_username (fold_left step entries st).
Proof.
  revert st. induction entries as [|e entries IH]; intros st Hst; simpl; [done|].
  apply IH. by apply examine_consistent.
Qed.

(** The set of seen URLs only grows. *)
Lemma examine_seen_mono st entry : seen_post_urls st ⊆ seen_post_urls (step st entry).
Proof.
  destruct (examine_cases st entry) as [(_ & _ & -> & _)|(_ & _ & -> & _)]; set_solver.
Qed.

Lemma fold_examine_seen_mono entries st :
  seen_post_urls st ⊆ seen_post_urls (fold_left step entries st).
Proof.
  revert st. induction entries as [|e entries IH]; intros st; simpl; [done|].
  etrans; [apply examine_seen_mono | apply IH].
Qed.

(** An examined entry whose underlying post passes the local filters has
    its URL among the seen ones from then on. *)
Lemma examine_records st entry :
  local_filters mastodon_username (ScoredPost.wrap (underlying entry)) = true →
  url (underlying entry) ∈ seen_post_urls (step st entry).
Proof.
  intros Hok.
  destruct (examine_cases st entry) as [(_ & _ & -> & [H|H])|(_ & _ & -> & _)].
  - exact H.
  - congruence.
  - set_solver.
Qed.

Lemma fold_examine_records entries st entry :
  In entry entries →
  local_filters mastodon_username (ScoredPost.wrap (underlying entry)) = true →
  url (underlying entry) ∈ seen_post_urls (fold_left step entries st).
Proof.
  revert st. induction entries as [|e entries IH]; intros st Hin Hok; [destruct Hin|].
  simpl. destruct Hin as [->|Hin].
  - apply fold_examine_seen_mono. by apply examine_records.
  - by apply IH.
Qed.

(** Provenance of the records. *)
Lemma examine_from_entries done_ st entry :
  from_entries done_ st → from_entries (done_ ++ [entry]) (step st entry).
Proof.
  intros [Hposts Hboosts].
  assert (from_entries (done_ ++ [entry]) st) as [Hposts' Hboosts'].
  { split.
    - intros p Hp. destruct (Hposts p Hp). rewrite in_app_iff. auto.
    - intros p Hp. destruct (Hboosts p Hp) as (e & He & Hr).
      exists e. rewrite in_app_iff. auto. }
  destruct (examine_cases st entry)
    as [(Hp & Hb & _)|(_ & _ & _ & [(Hr & Hp & Hb)|(Hr & Hp & Hb)])];
    split; rewrite ?Hp, ?Hb; auto.
  - intros p [Hin|[<-|[]]]%in_app_iff; [auto|]. cbn [ScoredPost.info].
    assert (underlying entry = entry) as ->
      by (unfold underlying, unwrap; by rewrite Hr).
    rewrite in_app_iff. simpl. auto.
  - intros p [Hin|[<-|[]]]%in_app_iff; [auto|]. cbn [ScoredPost.info].
    exists entry. rewrite in_app_iff. simpl. auto.
Qed.

Lemma fold_examine_from_entries entries done_ st :
  from_entries done_ st → from_entries (done_ ++ entries) (fold_left step entries st).
Proof.
  revert done_ st. induction entries as [|e entries IH]; intros done_ st Hst; simpl.
  - by rewrite app_nil_r.
  - replace (done_ ++ e :: entries) with ((done_ ++ [e]) ++ entries)
      by (by rewrite <- app_assoc).
    apply IH. by apply examine_from_entries.
Qed.
End Invariant.

(** ** The run as a whole *)

Lemma collect_entries hours client mastodon_username :
  collect hours client mastodon_username
  = fold_left (examine mastodon_username)
      (examined hours client mastodon_username) start_state.
Proof. apply fetch_loop_entries. Qed.

Lemma collect_consistent hours client mastodon_username :
  consistent mastodon_username (collect hours client mastodon_username).
Proof.
  rewrite collect_entries. apply fold_examine_consistent, start_consistent.
Qed.

Lemma collect_from_entries hours client mastodon_username :
  from_entries (examined hours client mastodon_username)
    (collect hours client mastodon_username).
Proof.
  rewrite collect_entries.
  apply (fold_examine_from_entries mastodon_username _ [] start_state).
  split; intros p [].
Qed.

Lemma occurrences_absent u l :
  ¬ In u (map ScoredPost.url l) → occurrences u l = 0%nat.
Proof.
  unfold occurrences. induction l as [|p l IH]; intros Hu; simpl; [done|].
  destruct (String.eqb_spec (ScoredPost.url p) u) as [Heq|Hne].
  - exfalso. apply Hu. simpl. auto.
  - apply IH. intros Hin. apply Hu. simpl. auto.
Qed.

Lemma occurrences_NoDup u l :
  List.NoDup (map ScoredPost.url l) →
  (occurrences u l ≤ 1)%nat
  ∧ (In u (map ScoredPost.url l) → occurrences u l = 1%nat).
Proof.
  induction l as [|p l IH]; intros Hnd.
  - split; [unfold occurrences; simpl; lia | intros []].
  - simpl in Hnd. apply NoDup_cons_iff in Hnd as [Hfresh Hnd].
    destruct (IH Hnd) as [Hle Hone].
    unfold occurrences in *. simpl.
    destruct (String.eqb_spec (ScoredPost.url p) u) as [Heq|Hne]; simpl.
    + subst u. pose proof (occurrences_absent _ _ Hfresh) as H0.
      unfold occurrences in H0. rewrite H0. split; [lia | done].
    + split; [done|]. intros [Heq|Hin]; [done | auto].
Qed.

(** ** Pagination cap *)

(** The counter of the loop is the number of entries the [for] loop went
    through, which are entries that survived the server-side filters. *)
Lemma total_is_examined hours client mastodon_username :
  total_posts_seen (collect hours client mastodon_username)
  = Z.of_nat (length (examined hours client mastodon_username)).
Proof. rewrite collect_entries, fold_examine_total. reflexivity. Qed.

(** C1, as amended: the limit is tested between pages only, and against the
    number of entries left by the server-side filters.  The counter equals
    the number of filtered entries iterated over; those of all fetched
    pages but the last number fewer than [TIMELINE_LIMIT], so that the total
    stays below the limit plus the size of the last filtered page; and the
    loop fetches no further page once the pagination ends, an empty page
    comes, or the counter has reached the limit. *)
Theorem cap_checked_between_pages hours client mastodon_username :
  let fetched :=
    fetched_pages client mastodon_username (timeline client hours) start_state in
  let total := total_posts_seen (collect hours client mastodon_username) in
  total = Z.of_nat (length (examined hours client mastodon_username))
  ∧ Z.of_nat (length (concat (map (filters_apply client) (removelast fetched))))
    < TIMELINE_LIMIT
  ∧ total < TIMELINE_LIMIT + Z.of_nat (length (filters_apply client (List.last fetched [])))
  ∧ ∃ rest, timeline client hours = fetched ++ rest
            ∧ (rest = [] ∨ hd [] rest = [] ∨ TIMELINE_LIMIT <= total).
Proof.
  intros fetched total.
  assert (∃ rest, timeline client hours = fetched ++ rest
                  ∧ (rest = [] ∨ hd [] rest = [] ∨ TIMELINE_LIMIT <= total)) as Hstop
    by apply fetched_pages_stop.
  cut (total = Z.of_nat (length (examined hours client mastodon_username))
       ∧ Z.of_nat (length (concat (map (filters_apply client) (removelast fetched))))
         < TIMELINE_LIMIT
       ∧ total < TIMELINE_LIMIT
                 + Z.of_nat (length (filters_apply client (List.last fetched [])))).
  { tauto. }
  clear Hstop. subst total. rewrite total_is_examined.
  split; [reflexivity|].
  unfold examined. fold fetched.
  destruct (fetched_before_last client mastodon_username (timeline client hours)
              start_state) as [Hnil | Hlt]; fold fetched in Hnil || fold fetched in Hlt.
  - rewrite Hnil. simpl. unfold TIMELINE_LIMIT. lia.
  - simpl in Hlt. split; [exact Hlt|].
    destruct fetched as [|f fs] eqn:Hf; [simpl; unfold TIMELINE_LIMIT; lia|].
    rewrite <- Hf in *.
    assert (fetched ≠ []) as Hne by (rewrite Hf; discriminate).
    rewrite (app_removelast_last [] Hne) at 1.
    rewrite map_app, concat_app, length_app. simpl. rewrite app_nil_r. lia.
Qed.

(** C1, as stated, fails: without filter rules, a first page of 19 entries
    followed by pages of 20 leaves the counter at 999 after fifty pages, so
    a fifty-first page is fetched and 1019 raw entries are examined. *)
Lemma cap_overshoot :
  Z.of_nat (length (concat long_timeline)) > TIMELINE_LIMIT
  ∧ ¬ (Z.of_nat (length (raw_examined 12 (unfiltered long_timeline) "me"))
       <= TIMELINE_LIMIT)
  ∧ total_posts_seen (collect 12 (unfiltered long_timeline) "me") = 1019.
Proof.
  rewrite total_is_examined. unfold examined, raw_examined.
  rewrite fetched_pages_take.
  split; [vm_compute; reflexivity|]. split; [|vm_compute; reflexivity].
  intros Hle. vm_compute in Hle. apply Hle. reflexivity.
Qed.

(** Entries hidden by the filter rules are not counted at all: here 1200 raw
    entries are fetched and the counter stays at 0. *)
Lemma cap_ignores_hidden :
  let pages := [page_of 0 400; page_of 400 400; page_of 800 400] in
  length (raw_examined 12 (all_hidden pages) "me") = 1200%nat
  ∧ total_posts_seen (collect 12 (all_hidden pages) "me") = 0.
Proof.
  cbv zeta. rewrite total_is_examined. unfold examined, raw_examined.
  rewrite fetched_pages_take. vm_compute. split; reflexivity.
Qed.

(** ** Deduplication *)

(** C2, as amended: the two lists together hold no identity URL twice, so
    every URL has at most one record; and the underlying post of an examined
    entry has exactly one record as soon as it passes the local filters. *)
Theorem no_duplicate_urls hours client mastodon_username :
  let '(ps, bs) := fetch_posts_and_boosts hours client mastodon_username in
  List.NoDup (map ScoredPost.url (ps ++ bs))
  ∧ (∀ u, (occurrences u (ps ++ bs) ≤ 1)%nat)
  ∧ (∀ entry,
       In entry (examined hours client mastodon_username) →
       local_filters mastodon_username (ScoredPost.wrap (underlying entry)) = true →
       occurrences (url (underlying entry)) (ps ++ bs) = 1%nat).
Proof.
  unfold fetch_posts_and_boosts. cbv zeta.
  destruct (collect_consistent hours client mastodon_username) as [Hseen Hnd _].
  unfold collected in *.
  split; [exact Hnd|]. split.
  - intros u. by apply occurrences_NoDup.
  - intros entry Hin Hok. apply occurrences_NoDup; [exact Hnd|].
    apply Hseen. rewrite collect_entries. by apply fold_examine_records.
Qed.

(** At the sample timeline, the boosted post of another account is
    collected exactly once, although three entries lead to it. *)
Lemma no_duplicate_urls_witness :
  let run := fetch_posts_and_boosts 12 (unfiltered alice_post_timeline) "me" in
  In (boost_by "carol" 2 alice_post) (examined 12 (unfiltered alice_post_timeline) "me")
  ∧ local_filters "me" (ScoredPost.wrap alice_post) = true
  ∧ occurrences (url alice_post) (fst run ++ snd run) = 1%nat.
Proof.
  split; [vm_compute; auto|]. split; [reflexivity|].
  destruct (no_duplicate_urls 12 (unfiltered alice_post_timeline) "me") as (_ & _ & H).
  apply (H (boost_by "carol" 2 alice_post)); [vm_compute; auto | reflexivity].
Defined.

(** C2, as stated, fails: the viewer's own post, present once directly and
    through two boosts, has no record at all. *)
Lemma own_post_has_no_record :
  ¬ exactly_one_record 12 (unfiltered own_post_timeline) "me".
Proof.
  intros H.
  specialize (H own_post [boost_by "bob" 1 own_post; boost_by "carol" 2 own_post]).
  assert (occurrences (url own_post) [] = 1%nat) as Habs; [|discriminate Habs].
  apply H; clear H.
  - simpl. auto.
  - reflexivity.
  - repeat constructor; simpl; [|tauto].
    intros [Heq|[]]. discriminate Heq.
  - intros b [<-|[<-|[]]]; (split; [simpl; auto | reflexivity]).
Qed.

(** ** Local exclusion *)

Lemma local_filters_spec mastodon_username p :
  local_filters mastodon_username p = true ↔
  acct (account (ScoredPost.info p)) ≠ mastodon_username
  ∧ reblogged (ScoredPost.info p) = false
  ∧ favourited (ScoredPost.info p) = false
  ∧ bookmarked (ScoredPost.info p) = false.
Proof.
  unfold local_filters. cbv zeta.
  rewrite !andb_true_iff, !negb_true_iff, String.eqb_neq. tauto.
Qed.

(** C3: no record of either list is authored by the viewer or was boosted,
    favourited or bookmarked by the viewer; the records of [posts] are
    examined entries that are no boosts, those of [boosts] are the posts
    that examined entries boost, and it is on these that the exclusion
    holds. *)
Theorem viewer_posts_excluded hours client mastodon_username p :
  let '(ps, bs) := fetch_posts_and_boosts hours client mastodon_username in
  (In p (ps ++ bs) →
     acct (account (ScoredPost.info p)) ≠ mastodon_username
     ∧ reblogged (ScoredPost.info p) = false
     ∧ favourited (ScoredPost.info p) = false
     ∧ bookmarked (ScoredPost.info p) = false)
  ∧ (In p ps →
       In (ScoredPost.info p) (examined hours client mastodon_username)
       ∧ reblog (ScoredPost.info p) = None)
  ∧ (In p bs →
       ∃ entry, In entry (examined hours client mastodon_username)
                ∧ reblog entry = Some (ScoredPost.info p)).
Proof.
  unfold fetch_posts_and_boosts. cbv zeta.
  destruct (collect_consistent hours client mastodon_username) as [_ _ Hpass].
  destruct (collect_from_entries hours client mastodon_username) as [Hposts Hboosts].
  split; [|split].
  - intros Hin. apply local_filters_spec, Hpass, Hin.
  - apply Hposts.
  - apply Hboosts.
Qed.

(** At the sample timeline the collected record, a boost, is the post of
    another account that an examined entry boosts. *)
Lemma viewer_posts_excluded_witness :
  let p := ScoredPost.wrap alice_post in
  In p (snd (fetch_posts_and_boosts 12 (unfiltered alice_post_timeline) "me"))
  ∧ acct (account (ScoredPost.info p)) ≠ "me"
  ∧ ∃ entry, In entry (examined 12 (unfiltered alice_post_timeline) "me")
             ∧ reblog entry = Some (ScoredPost.info p).
Proof.
  intros p.
  assert (In p (snd (fetch_posts_and_boosts 12 (unfiltered alice_post_timeline) "me")))
    as Hin by (vm_compute; auto).
  split; [exact Hin|].
  destruct (viewer_posts_excluded 12 (unfiltered alice_post_timeline) "me" p)
    as (Hall & _ & Hboost).
  split.
  - apply Hall, in_or_app. right. exact Hin.
  - apply Hboost, Hin.
Defined.

(** ** The percentile rank *)

Lemma Qltb_lt x y : Qltb x y = true ↔ (x < y)%Q.
Proof.
  unfold Qltb. rewrite negb_true_iff. split.
  - intros Hb. apply Qnot_le_lt. intros Hle.
    apply Qle_bool_iff in Hle. congruence.
  - intros Hlt. destruct (Qle_bool y x) eqn:Hb; [|reflexivity].
    apply Qle_bool_iff in Hb. by apply Qlt_not_le in Hlt.
Qed.

Lemma Qle_bool_Qeq x x' y y' :
  (x == x')%Q → (y == y')%Q → Qle_bool x y = Qle_bool x' y'.
Proof.
  intros Hx Hy.
  destruct (Qle_bool x y) eqn:H1, (Qle_bool x' y') eqn:H2; try reflexivity.
  - apply Qle_bool_iff in H1. rewrite Hx, Hy in H1.
    apply Qle_bool_iff in H1. congruence.
  - apply Qle_bool_iff in H2. rewrite <- Hx, <- Hy in H2.
    apply Qle_bool_iff in H2. congruence.
Qed.

Lemma Qltb_Qeq x x' y y' :
  (x == x')%Q → (y == y')%Q → Qltb x y = Qltb x' y'.
Proof. intros Hx Hy. unfold Qltb. f_equal. by apply Qle_bool_Qeq. Qed.

Lemma count_cons test x a :
  count test (x :: a) = (if test x then 1 else 0) + count test a.
Proof. unfold count. simpl. destruct (test x); simpl; lia. Qed.

Lemma count_bounds test a : 0 <= count test a <= Z.of_nat (length a).
Proof.
  induction a as [|x a IH]; [unfold count; simpl; lia|].
  rewrite count_cons. cbn [length]. destruct (test x); lia.
Qed.

Lemma count_le test test' a :
  (∀ x, test x = true → test' x = true) → count test a <= count test' a.
Proof.
  intros Himp. induction a as [|x a IH]; [unfold count; simpl; lia|].
  rewrite !count_cons. destruct (test x) eqn:Ht.
  - rewrite (Himp x Ht). lia.
  - destruct (test' x); lia.
Qed.

Lemma count_below_le score a :
  count (fun x => Qltb x score) a <= count (fun x => Qle_bool x score) a.
Proof.
  apply count_le. intros x Hlt%Qltb_lt. by apply Qle_bool_iff, Qlt_le_weak.
Qed.

(** Samples that agree value by value have the same counts, hence the very
    same rank. *)
Lemma count_Qeq (test test' : Q → bool) a a' :
  Forall2 (fun x x' => test x = test' x') a a' → count test a = count test' a'.
Proof.
  induction 1 as [|x x' a a' Hx _ IH]; [reflexivity|].
  rewrite !count_cons, Hx, IH. reflexivity.
Qed.

Lemma percentileofscore_Qeq a a' score score' :
  Forall2 Qeq a a' → (score == score')%Q →
  percentileofscore a score = percentileofscore a' score'.
Proof.
  intros Ha Hs. unfold percentileofscore.
  rewrite (Forall2_length _ _ _ Ha).
  rewrite (count_Qeq (fun x => Qltb x score) (fun x => Qltb x score') a a').
  - rewrite (count_Qeq (fun x => Qle_bool x score) (fun x => Qle_bool x score') a a').
    + reflexivity.
    + eapply Forall2_impl; [exact Ha|]. intros x x' Hx. by apply Qle_bool_Qeq.
  - eapply Forall2_impl; [exact Ha|]. intros x x' Hx. by apply Qltb_Qeq.
Qed.

(** The rank exists exactly on a non-empty sample. *)
Lemma percentileofscore_None a score :
  percentileofscore a score = None ↔ a = [].
Proof.
  unfold percentileofscore. destruct a as [|x a]; [done|].
  cbn [length]. destruct (Z.of_nat (S (length a)) =? 0) eqn:Hn.
  - apply Z.eqb_eq in Hn. lia.
  - split; discriminate.
Qed.




(** [exceeds] as a proposition, and its monotonicity in the threshold. *)
Lemma exceeds_spec percentile threshold :
  exceeds percentile threshold = true ↔
  ∃ pct, percentile = Some pct ∧ (inject_Z threshold < pct)%Q.
Proof.
  unfold exceeds. destruct percentile as [pct|].
  - rewrite Qltb_lt. split; [eauto|]. by intros (? & [= <-] & ?).
  - split; [discriminate|]. by intros (? & [=] & _).
Qed.

Lemma exceeds_mono percentile t1 t2 :
  t1 <= t2 → exceeds percentile t2 = true → exceeds percentile t1 = true.
Proof.
  rewrite !exceeds_spec. intros Hle (pct & -> & Hlt).
  exists pct. split; [reflexivity|].
  apply Qle_lt_trans with (inject_Z t2); [|exact Hlt].
  by rewrite <- Zle_Qle.
Qed.

(** ** Selection *)

Lemma threshold_lists_select scorer threshold posts boosts :
  threshold_lists scorer threshold posts boosts
  = (select scorer threshold posts, select scorer threshold boosts).
Proof. reflexivity. Qed.



Lemma filter_sublist_impl {A} (f g : A → bool) l :
  (∀ x, In x l → f x = true → g x = true) →
  List.filter f l `sublist_of` List.filter g l.
Proof.
  induction l as [|x l IH]; intros Himp; simpl; [constructor|].
  assert (List.filter f l `sublist_of` List.filter g l) as Hrec
    by (apply IH; intros y Hy; apply Himp; simpl; auto).
  destruct (f x) eqn:Hf.
  - rewrite (Himp x (or_introl eq_refl) Hf). by constructor.
  - destruct (g x); [by constructor | exact Hrec].
Qed.

Lemma filter_sublist {A} (f : A → bool) l : List.filter f l `sublist_of` l.
Proof.
  induction l as [|x l IH]; simpl; [constructor|].
  destruct (f x); by constructor.
Qed.

Lemma select_sublist scorer threshold items :
  select scorer threshold items `sublist_of` items.
Proof. apply filter_sublist. Qed.

Lemma select_antitone scorer t1 t2 items :
  t1 <= t2 → select scorer t2 items `sublist_of` select scorer t1 items.
Proof.
  intros Hle. apply filter_sublist_impl. intros p _. by apply exceeds_mono.
Qed.

Lemma sublist_In {A} (l k : list A) x : l `sublist_of` k → In x l → In x k.
Proof.
  induction 1 as [|y l k _ IH|y l k _ IH]; simpl; [tauto| |]; intuition auto.
Qed.

(** Selection reads the scorer on the items of its own list only. *)
Lemma select_Qeq scorer scorer' threshold items :
  (∀ p, In p items → (scorer p == scorer' p)%Q) →
  select scorer threshold items = select scorer' threshold items.
Proof.
  intros Hagree. unfold select. cbv zeta.
  apply filter_ext_in. intros p Hp. f_equal.
  apply percentileofscore_Qeq; [|by apply Hagree].
  clear p Hp. induction items as [|q items IH]; simpl; constructor.
  - apply Hagree. simpl. auto.
  - apply IH. intros p Hp. apply Hagree. simpl. auto.
Qed.


Lemma percentile_rank_defined scorer items p :
  In p items → percentile_rank scorer items p ≠ None.
Proof.
  intros Hin Hnone. apply percentileofscore_None in Hnone.
  destruct items; [destruct Hin | discriminate].
Qed.

(** ** Order of the collected lists *)

Section Order.
Variable mastodon_username : string.

Local Abbreviation step := (examine mastodon_username).
Local Abbreviation record := (fun entry => ScoredPost.wrap (underlying entry)).

Lemma examine_ordered done_ st entry :
  posts st `sublist_of` map record done_ →
  boosts st `sublist_of` map record done_ →
  posts (step st entry) `sublist_of` map record (done_ ++ [entry])
  ∧ boosts (step st entry) `sublist_of` map record (done_ ++ [entry]).
Proof.
  intros Hp Hb. rewrite map_app. cbn [map].
  destruct (examine_cases mastodon_username st entry)
    as [(-> & -> & _)|(_ & _ & _ & [(_ & -> & ->)|(_ & -> & ->)])];
    split; auto using sublist_inserts_r, sublist_app.
Qed.

Lemma fold_examine_ordered entries done_ st :
  posts st `sublist_of` map record done_ →
  boosts st `sublist_of` map record done_ →
  posts (fold_left step entries st) `sublist_of` map record (done_ ++ entries)
  ∧ boosts (fold_left step entries st) `sublist_of` map record (done_ ++ entries).
Proof.
  revert done_ st. induction entries as [|e entries IH]; intros done_ st Hp Hb; simpl.
  - by rewrite app_nil_r.
  - replace (done_ ++ e :: entries) with ((done_ ++ [e]) ++ entries)
      by (by rewrite <- app_assoc).
    destruct (examine_ordered done_ st e Hp Hb). by apply IH.
Qed.
End Order.

Lemma collect_ordered hours client mastodon_username :
  let record := fun entry => ScoredPost.wrap (underlying entry) in
  posts (collect hours client mastodon_username)
    `sublist_of` map record (examined hours client mastodon_username)
  ∧ boosts (collect hours client mastodon_username)
      `sublist_of` map record (examined hours client mastodon_username).
Proof.
  intros record. rewrite collect_entries.
  apply (fold_examine_ordered mastodon_username _ [] start_state); constructor.
Qed.

(** ** The selector's claims *)





(** C6: for thresholds [t1 <= t2], what is retained at [t2] is retained at
    [t1], in each category, and in the same order. *)
Theorem retained_antitone scorer t1 t2 posts boosts :
  t1 <= t2 →
  let at1 := threshold_lists scorer t1 posts boosts in
  let at2 := threshold_lists scorer t2 posts boosts in
  (∀ p, In p (fst at2) → In p (fst at1))
  ∧ (∀ p, In p (snd at2) → In p (snd at1))
  ∧ fst at2 `sublist_of` fst at1
  ∧ snd at2 `sublist_of` snd at1.
Proof.
  intros Hle at1 at2. subst at1 at2. rewrite !threshold_lists_select. cbn [fst snd].
  pose proof (select_antitone scorer t1 t2 posts Hle) as Hp.
  pose proof (select_antitone scorer t1 t2 boosts Hle) as Hb.
  repeat split; eauto using sublist_In.
Qed.

Lemma retained_antitone_witness :
  90 <= 98
  ∧ ∀ p, In p (fst (threshold_lists by_boosts 98 twenty_posts [])) →
         In p (fst (threshold_lists by_boosts 90 twenty_posts [])).
Proof.
  split; [lia|].
  destruct (retained_antitone by_boosts 90 98 twenty_posts []) as (H & _); [lia|].
  exact H.
Defined.

(** C7: the retained posts depend on the posts list, on the scores of its
    items and on the threshold only, whatever the boosts list and the
    scores of other items are; and likewise with the categories swapped. *)
Theorem categories_isolated scorer scorer' threshold posts posts' boosts boosts' :
  ((∀ p, In p posts → (scorer p == scorer' p)%Q) →
   fst (threshold_lists scorer threshold posts boosts)
   = fst (threshold_lists scorer' threshold posts boosts'))
  ∧ ((∀ p, In p boosts → (scorer p == scorer' p)%Q) →
     snd (threshold_lists scorer threshold posts boosts)
     = snd (threshold_lists scorer' threshold posts' boosts)).
Proof.
  rewrite !threshold_lists_select. cbn [fst snd].
  split; apply select_Qeq.
Qed.

(** The retained posts of a single alice post are the same next to no boosts
    scored by boosts and next to twenty boosts, every score doubled. *)
Lemma categories_isolated_witness :
  let scorer' := fun p =>
    if String.eqb (ScoredPost.url p) (url alice_post) then by_boosts p
    else by_boosts_twice p in
  fst (threshold_lists by_boosts 95 [ScoredPost.wrap alice_post] [])
  = fst (threshold_lists scorer' 95 [ScoredPost.wrap alice_post] twenty_posts).
Proof.
  intros scorer'.
  apply (categories_isolated by_boosts scorer' 95
           [ScoredPost.wrap alice_post] [] [] twenty_posts).
  intros p [<-|[]]. reflexivity.
Defined.



(** C10: each retained list is a subsequence of the collected list it is
    selected from, for any two lists and for those of a run; the collected
    lists themselves keep the order in which the entries were examined. *)
Theorem selection_preserves_order hours scorer threshold client mastodon_username :
  (∀ posts boosts,
     fst (threshold_lists scorer threshold posts boosts) `sublist_of` posts
     ∧ snd (threshold_lists scorer threshold posts boosts) `sublist_of` boosts)
  ∧ (let '(ps, bs) := fetch_posts_and_boosts hours client mastodon_username in
     let '(threshold_posts, threshold_boosts) :=
       run_selection hours scorer threshold client mastodon_username in
     let record := fun entry => ScoredPost.wrap (underlying entry) in
     threshold_posts `sublist_of` ps
     ∧ threshold_boosts `sublist_of` bs
     ∧ ps `sublist_of` map record (examined hours client mastodon_username)
     ∧ bs `sublist_of` map record (examined hours client mastodon_username)).
Proof.
  split.
  - intros posts boosts. rewrite threshold_lists_select.
    split; apply select_sublist.
  - unfold run_selection, fetch_posts_and_boosts. cbv zeta.
    rewrite threshold_lists_select.
    destruct (collect_ordered hours client mastodon_username) as [Hp Hb].
    repeat split; auto using select_sublist.
Qed.

(** ** Configuration *)

Section MainFacts.
Context {S : Type}.
Variable scorers : gmap string S.
Variable thresholds : gmap string Z.

Lemma parse_option_Some {A} (given : option A) choice default v :
  parse_option given choice default = Some v →
  (given = None ∧ v = default) ∨ (given = Some v ∧ choice v = true).
Proof.
  unfold parse_option. destruct given as [w|].
  - destruct (choice w) eqn:Hc; [|discriminate]. intros [= <-]. auto.
  - intros [= <-]. auto.
Qed.

Lemma parse_option_rejects {A} (given : option A) choice default v :
  given = Some v → choice v = false → parse_option given choice default = None.
Proof. intros -> Hc. unfold parse_option. by rewrite Hc. Qed.

(** What a successful parse returns. *)
Lemma parse_args_Some cl args :
  parse_args scorers thresholds cl = Some args →
  1 <= hours args < 25
  ∧ (opt_s cl = None ∧ scorer args = "SimpleWeighted"%string
     ∨ opt_s cl = Some (scorer args) ∧ scorer args ∈ dom scorers)
  ∧ (opt_t cl = None ∧ threshold args = "normal"%string
     ∨ opt_t cl = Some (threshold args) ∧ threshold args ∈ dom thresholds).
Proof.
  unfold parse_args.
  destruct (parse_option (opt_n cl) _ _) as [h|] eqn:Hh; [|discriminate].
  destruct (parse_option (opt_s cl) _ _) as [s|] eqn:Hs; [|discriminate].
  destruct (parse_option (opt_t cl) _ _) as [t|] eqn:Ht; [|discriminate].
  simpl. intros [= <-]. simpl.
  apply parse_option_Some in Hh, Hs, Ht.
  split; [|split].
  - destruct Hh as [[_ ->]|[_ Hc]]; [lia|].
    apply andb_true_iff in Hc as [?%Z.leb_le ?%Z.ltb_lt]. lia.
  - destruct Hs as [[? ?]|[? ?%bool_decide_eq_true_1]]; auto.
  - destruct Ht as [[? ?]|[? ?%bool_decide_eq_true_1]]; auto.
Qed.

(** A given name outside its registry makes the parse fail. *)
Lemma parse_args_rejects cl name :
  (opt_s cl = Some name ∧ name ∉ dom scorers)
  ∨ (opt_t cl = Some name ∧ name ∉ dom thresholds) →
  parse_args scorers thresholds cl = None.
Proof.
  intros Hbad.
  destruct (parse_args scorers thresholds cl) as [args|] eqn:Hparse; [|reflexivity].
  apply parse_args_Some in Hparse as (_ & Hs & Ht).
  destruct Hbad as [[Hgiven Hout]|[Hgiven Hout]].
  - destruct Hs as [[Hnone _]|[Hsome Hin]]; [congruence|].
    rewrite Hgiven in Hsome. injection Hsome as ->. done.
  - destruct Ht as [[Hnone _]|[Hsome Hin]]; [congruence|].
    rewrite Hgiven in Hsome. injection Hsome as ->. done.
Qed.

Lemma main_missing cl environ :
  missing (environ !! "MASTODON_TOKEN"%string) = true
  ∨ missing (environ !! "MASTODON_BASE_URL"%string) = true
  ∨ missing (environ !! "MASTODON_USERNAME"%string) = true →
  main scorers thresholds cl environ = ArgparseError
  ∨ ∃ message, main scorers thresholds cl environ = SysExit message.
Proof.
  intros Hmiss. unfold main.
  destruct (parse_args scorers thresholds cl) as [args|] eqn:Hparse; [|by left].
  apply parse_args_Some in Hparse as (Hh & _).
  destruct (hours args =? 0) eqn:H0; [apply Z.eqb_eq in H0; lia|].
  right. cbv zeta.
  destruct (missing (environ !! "MASTODON_TOKEN"%string)); [eauto|].
  destruct (missing (environ !! "MASTODON_BASE_URL"%string)); [eauto|].
  destruct (missing (environ !! "MASTODON_USERNAME"%string)); [eauto|].
  destruct Hmiss as [?|[?|?]]; discriminate.
Qed.

Lemma main_unknown_name cl environ :
  default "SimpleWeighted"%string (opt_s cl) ∉ dom scorers
  ∨ default "normal"%string (opt_t cl) ∉ dom thresholds →
  fatal (main scorers thresholds cl environ) = true.
Proof.
  intros Hbad. unfold main.
  destruct (parse_args scorers thresholds cl) as [args|] eqn:Hparse; [|reflexivity].
  apply parse_args_Some in Hparse as (Hh & Hs & Ht).
  destruct (hours args =? 0) eqn:H0; [apply Z.eqb_eq in H0; lia|].
  cbv zeta.
  destruct (missing (environ !! "MASTODON_TOKEN"%string)); [reflexivity|].
  destruct (missing (environ !! "MASTODON_BASE_URL"%string)); [reflexivity|].
  destruct (missing (environ !! "MASTODON_USERNAME"%string)); [reflexivity|].
  destruct (scorers !! scorer args) as [sc|] eqn:Hsc; [|reflexivity].
  destruct (thresholds !! threshold args) as [th|] eqn:Hth; [|reflexivity].
  exfalso. destruct Hbad as [Hout|Hout]; apply Hout, elem_of_dom.
  - destruct Hs as [[-> <-]|[-> _]]; simpl; eauto.
  - destruct Ht as [[-> <-]|[-> _]]; simpl; eauto.
Qed.

Lemma fatal_no_network (o : Outcome S) : fatal o = true → network_activity o = false.
Proof. by destruct o. Qed.
End MainFacts.

(** C9: with the token, the base URL or the viewer's name missing, the
    block ends in a fatal error and [run] is not called; a scorer or
    threshold name given on the command line that is not in its registry is
    refused by the parser, before the environment is even read; and
    whenever the name in force is not in its registry the block ends in a
    fatal error without calling [run]. *)
Theorem configuration_checked_first {S : Type} (scorers : gmap string S)
    (thresholds : gmap string Z) (cl : CommandLine) (environ : gmap string string) :
  let outcome := main scorers thresholds cl environ in
  (missing (environ !! "MASTODON_TOKEN"%string) = true
   ∨ missing (environ !! "MASTODON_BASE_URL"%string) = true
   ∨ missing (environ !! "MASTODON_USERNAME"%string) = true →
   fatal outcome = true ∧ network_activity outcome = false)
  ∧ (∀ name,
       (opt_s cl = Some name ∧ name ∉ dom scorers)
       ∨ (opt_t cl = Some name ∧ name ∉ dom thresholds) →
       outcome = ArgparseError)
  ∧ (default "SimpleWeighted"%string (opt_s cl) ∉ dom scorers
     ∨ default "normal"%string (opt_t cl) ∉ dom thresholds →
     fatal outcome = true ∧ network_activity outcome = false).
Proof.
  intros outcome. subst outcome. split; [|split].
  - intros Hmiss.
    assert (fatal (main scorers thresholds cl environ) = true) as Hfatal.
    { destruct (main_missing scorers thresholds cl environ Hmiss) as [->|[m ->]];
        reflexivity. }
    split; [exact Hfatal | by apply fatal_no_network].
  - intros name Hbad. unfold main.
    by rewrite (parse_args_rejects scorers thresholds cl name Hbad).
  - intros Hbad.
    pose proof (main_unknown_name scorers thresholds cl environ Hbad) as Hfatal.
    split; [exact Hfatal | by apply fatal_no_network].
Qed.

(** Without the viewer's name in the environment the block stops on the
    third check; with an unknown threshold name it stops in the parser. *)
Lemma configuration_checked_first_witness :
  missing (no_username !! "MASTODON_USERNAME"%string) = true
  ∧ fatal (main two_scorers get_thresholds (mkCommandLine None None None) no_username)
    = true
  ∧ main two_scorers get_thresholds
      (mkCommandLine None None (Some "harsh"%string)) no_username
    = ArgparseError.
Proof.
  split; [reflexivity|]. split.
  - destruct (configuration_checked_first two_scorers get_thresholds
                (mkCommandLine None None None) no_username) as (H & _).
    apply H. right. right. reflexivity.
  - destruct (configuration_checked_first two_scorers get_thresholds
                (mkCommandLine None None (Some "harsh"%string)) no_username)
      as (_ & H & _).
    apply (H "harsh"%string). right. split; [reflexivity|].
    apply not_elem_of_dom. vm_compute. reflexivity.
Defined.

(** * Further properties of the collector *)

Section LoopFacts.
Variable client : Mastodon.
Variable mastodon_username : string.

Local Abbreviation step := (examine mastodon_username).
Local Abbreviation loop := (fetch_loop client mastodon_username).

(** With the counter at the limit the loop does nothing. *)
Lemma fetch_loop_full pages st :
  TIMELINE_LIMIT <= total_posts_seen st → loop pages st = st.
Proof.
  intros Hfull. destruct pages as [|response older]; [reflexivity|]. simpl.
  assert ((total_posts_seen st <? TIMELINE_LIMIT) = false) as ->
    by (apply Z.ltb_ge; lia).
  by rewrite andb_false_r.
Qed.

(** Pages behind an empty response are never looked at. *)
Lemma fetch_loop_empty_page before after st :
  loop (before ++ [] :: after) st = loop before st.
Proof.
  revert st. induction before as [|response older IH]; intros st; simpl.
  - reflexivity.
  - destruct (truthy response && _); [apply IH | reflexivity].
Qed.

(** Pages behind the point where the counter reaches the limit are never
    looked at either. *)
Lemma fetch_loop_capped before after st :
  TIMELINE_LIMIT <= total_posts_seen st + filtered_size client before →
  loop (before ++ after) st = loop before st.
Proof.
  unfold filtered_size.
  revert st. induction before as [|response older IH]; intros st Hfull.
  - simpl in *. apply fetch_loop_full. lia.
  - simpl. destruct (truthy response && _); [|reflexivity].
    apply IH. rewrite process_page_total.
    cbn [map concat] in Hfull. rewrite length_app in Hfull. lia.
Qed.

(** A timeline without empty page whose pages before the last hold fewer
    filtered entries than the limit is fetched to its end. *)
Lemma fetched_pages_all pages st :
  Forall (fun response => response ≠ []) pages →
  total_posts_seen st + filtered_size client (removelast pages) < TIMELINE_LIMIT →
  fetched_pages client mastodon_username pages st = pages.
Proof.
  unfold filtered_size.
  revert st. induction pages as [|response older IH]; intros st Hne Hlt; [reflexivity|].
  apply Forall_cons in Hne as [Hr Hne].
  pose proof (Nat2Z.is_nonneg
    (length (concat (map (filters_apply client) (removelast (response :: older))))))
    as Hpos.
  cbn [fetched_pages].
  assert (truthy response = true) as -> by (by destruct response).
  assert ((total_posts_seen st <? TIMELINE_LIMIT) = true) as ->
    by (apply Z.ltb_lt; lia).
  cbn [andb]. f_equal. destruct older as [|next older']; [reflexivity|].
  apply IH; [exact Hne|]. rewrite process_page_total.
  change (removelast (response :: next :: older'))
    with (response :: removelast (next :: older')) in Hlt.
  cbn [map concat] in Hlt. rewrite length_app in Hlt. lia.
Qed.

(** An iteration only appends to the two lists. *)
Lemma examine_prefix st entry :
  posts st `prefix_of` posts (step st entry)
  ∧ boosts st `prefix_of` boosts (step st entry).
Proof.
  destruct (examine_cases mastodon_username st entry)
    as [(-> & -> & _)|(_ & _ & _ & [(_ & -> & ->)|(_ & -> & ->)])];
    split; try reflexivity; by apply prefix_app_r.
Qed.

Lemma fold_examine_prefix entries st :
  posts st `prefix_of` posts (fold_left step entries st)
  ∧ boosts st `prefix_of` boosts (fold_left step entries st).
Proof.
  revert st. induction entries as [|e entries IH]; intros st; simpl; [done|].
  destruct (examine_prefix st e) as [Hp Hb], (IH (step st e)) as [Hp' Hb'].
  split; by etrans.
Qed.

Lemma fetch_loop_prefix pages st :
  posts st `prefix_of` posts (loop pages st)
  ∧ boosts st `prefix_of` boosts (loop pages st).
Proof. rewrite fetch_loop_entries. apply fold_examine_prefix. Qed.

(** More pages at the end of the pagination: the loop either never gets to
    them or goes on from where it stood. *)
Lemma fetch_loop_app pages more st :
  loop (pages ++ more) st = loop pages st
  ∨ loop (pages ++ more) st = loop more (loop pages st).
Proof.
  revert st. induction pages as [|response older IH]; intros st; simpl.
  - by right.
  - destruct (truthy response && _); [apply IH | by left].
Qed.

(** The two lists never hold more records than entries were examined. *)
Lemma examine_size st entry :
  (length (collected (step st entry)) ≤ S (length (collected st)))%nat.
Proof.
  destruct (examine_collected mastodon_username st entry) as [-> | Hperm]; [lia|].
  rewrite (Permutation_length Hperm). simpl. lia.
Qed.

Lemma fold_examine_size entries st :
  (length (collected (fold_left step entries st))
   ≤ length (collected st) + length entries)%nat.
Proof.
  revert st. induction entries as [|e entries IH]; intros st; simpl; [lia|].
  pose proof (IH (step st e)). pose proof (examine_size st e). lia.
Qed.
End LoopFacts.

Lemma NoDup_app_disjoint {A} (l k : list A) x :
  List.NoDup (l ++ k) → In x l → In x k → False.
Proof.
  induction l as [|y l IH]; intros Hnd Hl Hk; [destruct Hl|].
  simpl in Hnd. apply NoDup_cons_iff in Hnd as [Hy Hnd].
  destruct Hl as [->|Hl]; [|by apply IH].
  apply Hy, in_or_app. by right.
Qed.

Lemma underlying_original entry : reblog entry = None → underlying entry = entry.
Proof. intros Hr. unfold underlying, unwrap. by rewrite Hr. Qed.

Lemma underlying_boost entry boosted :
  reblog entry = Some boosted → underlying entry = boosted.
Proof. intros Hr. unfold underlying, unwrap. by rewrite Hr. Qed.

(** Every record stems from an examined entry with the same underlying
    post. *)
Lemma record_origin entries st p :
  from_entries entries st → In p (collected st) →
  ∃ entry, In entry entries ∧ underlying entry = ScoredPost.info p.
Proof.
  intros [Hposts Hboosts] [Hp|Hp]%in_app_iff.
  - destruct (Hposts p Hp) as [Hin Hr]. exists (ScoredPost.info p).
    split; [exact Hin | by apply underlying_original].
  - destruct (Hboosts p Hp) as (e & Hin & Hr). exists e.
    split; [exact Hin | by apply underlying_boost].
Qed.

(** X1: the identity URLs of the two returned lists are exactly the URLs of
    the underlying posts of the examined entries that pass the local
    filters. *)
Theorem collected_urls_characterised hours client mastodon_username u :
  let '(ps, bs) := fetch_posts_and_boosts hours client mastodon_username in
  In u (map ScoredPost.url (ps ++ bs)) ↔
  ∃ entry, In entry (examined hours client mastodon_username)
           ∧ url (underlying entry) = u
           ∧ local_filters mastodon_username (ScoredPost.wrap (underlying entry)) = true.
Proof.
  unfold fetch_posts_and_boosts. cbv zeta.
  destruct (collect_consistent hours client mastodon_username) as [Hseen _ Hpass].
  pose proof (collect_from_entries hours client mastodon_username) as Hfrom.
  unfold collected in *. split.
  - intros (p & <- & Hp)%in_map_iff.
    destruct (record_origin _ _ p Hfrom Hp) as (entry & Hin & Hu).
    exists entry. split; [exact Hin|]. rewrite Hu. split; [reflexivity|].
    destruct p as [i]. apply Hpass, Hp.
  - intros (entry & Hin & <- & Hok). apply Hseen.
    rewrite collect_entries. by apply fold_examine_records.
Qed.

(** In the sample timeline the entry of alice's post itself passes the
    local filters, so its URL is among the collected ones. *)
Lemma collected_urls_characterised_witness :
  let run := fetch_posts_and_boosts 12 (unfiltered alice_post_timeline) "me" in
  In alice_post (examined 12 (unfiltered alice_post_timeline) "me")
  ∧ In (url alice_post) (map ScoredPost.url (fst run ++ snd run)).
Proof.
  assert (In alice_post (examined 12 (unfiltered alice_post_timeline) "me")) as Hin
    by (vm_compute; auto).
  split; [exact Hin|].
  apply (collected_urls_characterised 12 (unfiltered alice_post_timeline) "me"
           (url alice_post)).
  exists alice_post. split; [exact Hin|]. split; reflexivity.
Defined.

(** X2: the first examined entry that leads to a post passing the local
    filters decides where the post goes: into [posts] when that entry is
    the post itself, into [boosts] when it is a boost of it, and the other
    list holds no record with that URL. *)
Theorem first_form_wins hours client mastodon_username before entry after :
  examined hours client mastodon_username = before ++ entry :: after →
  local_filters mastodon_username (ScoredPost.wrap (underlying entry)) = true →
  (∀ e, In e before → url (underlying e) ≠ url (underlying entry)) →
  let '(ps, bs) := fetch_posts_and_boosts hours client mastodon_username in
  let r := ScoredPost.wrap (underlying entry) in
  match reblog entry with
  | None => In r ps ∧ occurrences (ScoredPost.url r) bs = 0%nat
  | Some _ => In r bs ∧ occurrences (ScoredPost.url r) ps = 0%nat
  end.
Proof.
  intros Hex Hok Hfirst. unfold fetch_posts_and_boosts. cbv zeta.
  set (r := ScoredPost.wrap (underlying entry)).
  destruct (collect_consistent hours client mastodon_username) as [_ Hnd _].
  unfold collected in Hnd.
  set (st1 := fold_left (examine mastodon_username) before start_state).
  assert (collect hours client mastodon_username
          = fold_left (examine mastodon_username) after
              (examine mastodon_username st1 entry)) as Hrun
    by (rewrite collect_entries, Hex, fold_left_app; reflexivity).
  rewrite Hrun in *.
  destruct (fold_examine_prefix mastodon_username after
              (examine mastodon_username st1 entry)) as [[kp Hp] [kb Hb]].
  assert (ScoredPost.url r ∉ seen_post_urls st1) as Hfresh.
  { intros Hin.
    destruct (fold_examine_consistent mastodon_username before start_state
                (start_consistent mastodon_username)) as [Hseen _ _].
    apply Hseen in Hin. apply in_map_iff in Hin as (p & Hu & Hin).
    assert (from_entries before st1) as Hfrom.
    { apply (fold_examine_from_entries mastodon_username before [] start_state).
      split; intros q []. }
    destruct (record_origin _ _ p Hfrom Hin) as (e & He & Hund).
    apply (Hfirst e He). rewrite Hund. exact Hu. }
  destruct (examine_cases mastodon_username st1 entry)
    as [(_ & _ & _ & [Hseen|Hno])|(_ & _ & _ & [(Hr & Hposts & _)|(Hr & _ & Hboosts)])].
  - done.
  - cbv zeta in Hno. rewrite Hok in Hno. discriminate Hno.
  - rewrite Hr.
    assert (In r (posts (fold_left (examine mastodon_username) after
                           (examine mastodon_username st1 entry)))) as Hin.
    { rewrite Hp, Hposts. apply in_or_app. left. apply in_or_app. right. by left. }
    split; [exact Hin|]. apply occurrences_absent. intros Hb'.
    rewrite map_app in Hnd.
    apply (NoDup_app_disjoint _ _ (ScoredPost.url r) Hnd); [|exact Hb'].
    by apply in_map.
  - rewrite Hr.
    assert (In r (boosts (fold_left (examine mastodon_username) after
                            (examine mastodon_username st1 entry)))) as Hin.
    { rewrite Hb, Hboosts. apply in_or_app. left. apply in_or_app. right. by left. }
    split; [exact Hin|]. apply occurrences_absent. intros Hp'.
    rewrite map_app in Hnd.
    apply (NoDup_app_disjoint _ _ (ScoredPost.url r) Hnd); [exact Hp'|].
    by apply in_map.
Qed.

(** In the sample timeline the boost by bob comes first, so the post of
    alice is collected as a boost although it is also there on its own. *)
Lemma first_form_wins_witness :
  let r := ScoredPost.wrap alice_post in
  examined 12 (unfiltered alice_post_timeline) "me"
  = [] ++ boost_by "bob" 1 alice_post :: [boost_by "carol" 2 alice_post; alice_post]
  ∧ In r (snd (fetch_posts_and_boosts 12 (unfiltered alice_post_timeline) "me"))
  ∧ occurrences (ScoredPost.url r)
      (fst (fetch_posts_and_boosts 12 (unfiltered alice_post_timeline) "me")) = 0%nat.
Proof.
  intros r.
  assert (examined 12 (unfiltered alice_post_timeline) "me"
          = [] ++ boost_by "bob" 1 alice_post
                  :: [boost_by "carol" 2 alice_post; alice_post]) as Hex
    by (vm_compute; reflexivity).
  split; [exact Hex|].
  apply (first_form_wins 12 (unfiltered alice_post_timeline) "me" _ _ _ Hex).
  - reflexivity.
  - intros e [].
Defined.

Lemma fetch_with_pages hours client mastodon_username pages :
  timeline client hours = pages →
  fetch_posts_and_boosts hours client mastodon_username
  = (posts (fetch_loop client mastodon_username pages start_state),
     boosts (fetch_loop client mastodon_username pages start_state)).
Proof. intros <-. reflexivity. Qed.

(** The loop uses the client for its filters only. *)
Lemma fetch_loop_with_pages client other mastodon_username pages st :
  fetch_loop (with_pages client other) mastodon_username pages st
  = fetch_loop client mastodon_username pages st.
Proof.
  revert st. induction pages as [|response older IH]; intros st; simpl; [reflexivity|].
  destruct (truthy response && _); [|reflexivity].
  rewrite IH. reflexivity.
Qed.

Lemma fetch_with_pages' hours client mastodon_username pages :
  fetch_posts_and_boosts hours (with_pages client pages) mastodon_username
  = (posts (fetch_loop client mastodon_username pages start_state),
     boosts (fetch_loop client mastodon_username pages start_state)).
Proof.
  rewrite (fetch_with_pages hours (with_pages client pages) _ pages eq_refl).
  by rewrite fetch_loop_with_pages.
Qed.

(** X3: the two returned lists together never hold more records than
    entries were examined, and so never more than the counter says. *)
Theorem collected_size_bound hours client mastodon_username :
  let '(ps, bs) := fetch_posts_and_boosts hours client mastodon_username in
  (length ps + length bs ≤ length (examined hours client mastodon_username))%nat
  ∧ Z.of_nat (length ps + length bs)
    <= total_posts_seen (collect hours client mastodon_username).
Proof.
  unfold fetch_posts_and_boosts. cbv zeta.
  assert (length (posts (collect hours client mastodon_username))
          + length (boosts (collect hours client mastodon_username))
          ≤ length (examined hours client mastodon_username))%nat as Hle.
  { rewrite <- length_app. fold (collected (collect hours client mastodon_username)).
    rewrite collect_entries.
    pose proof (fold_examine_size mastodon_username
                  (examined hours client mastodon_username) start_state) as H.
    simpl in H. exact H. }
  split; [exact Hle|]. rewrite total_is_examined. lia.
Qed.

(** X4: a timeline without empty page, whose pages before the last leave
    fewer than [TIMELINE_LIMIT] entries after filtering, is read to its
    end: every entry the filters let through is examined. *)
Theorem short_timeline_fully_examined hours client mastodon_username :
  Forall (fun response => response ≠ []) (timeline client hours) →
  filtered_size client (removelast (timeline client hours)) < TIMELINE_LIMIT →
  raw_examined hours client mastodon_username = concat (timeline client hours)
  ∧ examined hours client mastodon_username
    = concat (map (filters_apply client) (timeline client hours)).
Proof.
  intros Hne Hlt. unfold raw_examined, examined.
  rewrite (fetched_pages_all client mastodon_username _ start_state Hne); [done|].
  simpl. exact Hlt.
Qed.

Lemma short_timeline_fully_examined_witness :
  let client := unfiltered [page_of 0 3; page_of 3 2] in
  filtered_size client (removelast (timeline client 12)) < TIMELINE_LIMIT
  ∧ examined 12 client "me" = page_of 0 3 ++ page_of 3 2.
Proof.
  intros client.
  assert (filtered_size client (removelast (timeline client 12)) < TIMELINE_LIMIT)
    as Hlt by (vm_compute; reflexivity).
  split; [exact Hlt|].
  destruct (short_timeline_fully_examined 12 client "me") as [_ ->].
  - repeat constructor; discriminate.
  - exact Hlt.
  - reflexivity.
Defined.

(** X5: the pagination is not followed past an empty response: what comes
    behind it has no influence on the result. *)
Theorem nothing_fetched_past_empty_page hours client mastodon_username before after :
  timeline client hours = before ++ [] :: after →
  fetch_posts_and_boosts hours client mastodon_username
  = fetch_posts_and_boosts hours (with_pages client before) mastodon_username.
Proof.
  intros Hpages.
  rewrite (fetch_with_pages _ _ _ _ Hpages), fetch_with_pages'.
  rewrite fetch_loop_empty_page. reflexivity.
Qed.

Lemma nothing_fetched_past_empty_page_witness :
  fetch_posts_and_boosts 12 (unfiltered [page_of 0 3; []; page_of 3 3]) "me"
  = fetch_posts_and_boosts 12
      (with_pages (unfiltered [page_of 0 3; []; page_of 3 3]) [page_of 0 3]) "me".
Proof.
  apply (nothing_fetched_past_empty_page 12 _ "me" [page_of 0 3] [page_of 3 3]).
  reflexivity.
Defined.

(** X6: once the pages fetched so far have left [TIMELINE_LIMIT] entries or
    more after filtering, no further page is fetched: the pages behind
    have no influence on the result. *)
Theorem nothing_fetched_past_limit hours client mastodon_username before after :
  timeline client hours = before ++ after →
  TIMELINE_LIMIT <= filtered_size client before →
  fetch_posts_and_boosts hours client mastodon_username
  = fetch_posts_and_boosts hours (with_pages client before) mastodon_username.
Proof.
  intros Hpages Hfull.
  rewrite (fetch_with_pages _ _ _ _ Hpages), fetch_with_pages'.
  rewrite (fetch_loop_capped client mastodon_username before after start_state);
    [reflexivity | simpl; exact Hfull].
Qed.

Lemma nothing_fetched_past_limit_witness :
  let pages := [page_of 0 600; page_of 600 400; page_of 1000 5] in
  TIMELINE_LIMIT <= filtered_size (unfiltered pages) [page_of 0 600; page_of 600 400]
  ∧ fetch_posts_and_boosts 12 (unfiltered pages) "me"
    = fetch_posts_and_boosts 12
        (with_pages (unfiltered pages) [page_of 0 600; page_of 600 400]) "me".
Proof.
  intros pages.
  assert (TIMELINE_LIMIT
          <= filtered_size (unfiltered pages) [page_of 0 600; page_of 600 400]) as Hfull
    by (vm_compute; discriminate).
  split; [exact Hfull|].
  apply (nothing_fetched_past_limit 12 (unfiltered pages) "me"
           [page_of 0 600; page_of 600 400] [page_of 1000 5]); [reflexivity | exact Hfull].
Defined.

(** X7: with more pages at the end of the pagination, each returned list
    starts with what it was without them: nothing collected is dropped or
    moved. *)
Theorem longer_timeline_extends hours client mastodon_username pages more :
  let '(ps, bs) :=
    fetch_posts_and_boosts hours (with_pages client pages) mastodon_username in
  let '(ps', bs') :=
    fetch_posts_and_boosts hours (with_pages client (pages ++ more)) mastodon_username in
  ps `prefix_of` ps' ∧ bs `prefix_of` bs'.
Proof.
  rewrite !fetch_with_pages'.
  destruct (fetch_loop_app client mastodon_username pages more start_state) as [->| ->].
  - done.
  - apply fetch_loop_prefix.
Qed.

(** * Further properties of the selection *)

Lemma percentileofscore_numerator a score :
  percentileofscore a score
  = if Z.of_nat (length a) =? 0 then None
    else Some (inject_Z (rank_numerator a score) * (50 / inject_Z (Z.of_nat (length a))))%Q.
Proof. reflexivity. Qed.

Lemma scaled_lt t k n :
  0 < n → (inject_Z t < inject_Z k * (50 / inject_Z n))%Q ↔ t * n < 50 * k.
Proof.
  intros Hn. destruct n as [|n|n]; try lia.
  unfold Qlt, Qdiv, Qmult, Qinv, inject_Z. simpl. lia.
Qed.

(** Retention in integers: [threshold * n < 50 * numerator]. *)
Lemma exceeds_numerator a score threshold :
  a ≠ [] →
  exceeds (percentileofscore a score) threshold = true ↔
  threshold * Z.of_nat (length a) < 50 * rank_numerator a score.
Proof.
  intros Hne. rewrite percentileofscore_numerator.
  assert (0 < Z.of_nat (length a)) as Hn by (destruct a; [done | simpl; lia]).
  destruct (Z.of_nat (length a) =? 0) eqn:H0; [apply Z.eqb_eq in H0; lia|].
  unfold exceeds. rewrite Qltb_lt. by apply scaled_lt.
Qed.

Lemma count_map {A} (f : A → Q) test l :
  count test (map f l) = Z.of_nat (length (List.filter (fun x => test (f x)) l)).
Proof.
  unfold count. f_equal. induction l as [|x l IH]; [reflexivity|].
  simpl. destruct (test (f x)); simpl; by rewrite IH.
Qed.


Lemma count_none test a : (∀ x, In x a → test x = false) → count test a = 0.
Proof.
  intros Hnone. induction a as [|x a IH]; [reflexivity|].
  rewrite count_cons, (Hnone x (or_introl eq_refl)), IH; [lia|].
  intros y Hy. apply Hnone. by right.
Qed.



(** The numerator does not decrease with the score. *)
Lemma rank_numerator_mono a s s' :
  (s <= s')%Q → rank_numerator a s <= rank_numerator a s'.
Proof.
  intros [Hlt|Heq]%Qle_lteq.
  - unfold rank_numerator. cbv zeta.
    assert (count (fun x => Qltb x s) a <= count (fun x => Qltb x s') a) as Hl.
    { apply count_le. intros x Hx%Qltb_lt. apply Qltb_lt. by apply Qlt_trans with s. }
    assert (count (fun x => Qle_bool x s) a <= count (fun x => Qltb x s') a) as Hrl.
    { apply count_le. intros x Hx%Qle_bool_iff. apply Qltb_lt.
      by apply Qle_lt_trans with s. }
    pose proof (count_below_le s a). pose proof (count_below_le s' a).
    destruct (_ <? _) eqn:H1; [apply Z.ltb_lt in H1 | apply Z.ltb_ge in H1];
      destruct (_ <? _) eqn:H2; try apply Z.ltb_lt in H2; try apply Z.ltb_ge in H2; lia.
  - unfold rank_numerator. cbv zeta.
    rewrite (count_Qeq (fun x => Qltb x s) (fun x => Qltb x s') a a).
    + rewrite (count_Qeq (fun x => Qle_bool x s) (fun x => Qle_bool x s') a a); [lia|].
      apply Forall2_same_length_lookup_2; [done|].
      intros i x y Hx Hy. rewrite Hx in Hy. injection Hy as <-.
      by apply Qle_bool_Qeq.
    + apply Forall2_same_length_lookup_2; [done|].
      intros i x y Hx Hy. rewrite Hx in Hy. injection Hy as <-.
      by apply Qltb_Qeq.
Qed.


Lemma select_In_numerator scorer threshold items p :
  In p (select scorer threshold items) ↔
  In p items
  ∧ threshold * Z.of_nat (length items)
    < 50 * rank_numerator (map (ScoredPost.get_score scorer) items)
             (ScoredPost.get_score scorer p).
Proof.
  unfold select. cbv zeta. rewrite filter_In. split.
  - intros [Hin Hex]. split; [exact Hin|].
    apply exceeds_numerator in Hex; [by rewrite length_map in Hex|].
    destruct items; [destruct Hin | discriminate].
  - intros [Hin Hlt]. split; [exact Hin|].
    apply exceeds_numerator; [destruct items; [destruct Hin | discriminate]|].
    by rewrite length_map.
Qed.

Lemma select_upward scorer threshold items p q :
  In p (select scorer threshold items) → In q items →
  (scorer p <= scorer q)%Q → In q (select scorer threshold items).
Proof.
  rewrite !select_In_numerator. intros [_ Hlt] Hq Hle. split; [exact Hq|].
  pose proof (rank_numerator_mono (map (ScoredPost.get_score scorer) items)
                (ScoredPost.get_score scorer p) (ScoredPost.get_score scorer q) Hle).
  lia.
Qed.

(** X8: selection never passes over a better item: when an item is
    retained, every item of the same list that scores at least as high is
    retained too; in particular items with equal scores are kept or
    dropped together. *)
Theorem selection_upward_closed scorer threshold posts boosts p q :
  (scorer p <= scorer q)%Q →
  let '(threshold_posts, threshold_boosts) :=
    threshold_lists scorer threshold posts boosts in
  (In p threshold_posts → In q posts → In q threshold_posts)
  ∧ (In p threshold_boosts → In q boosts → In q threshold_boosts).
Proof.
  intros Hle. rewrite threshold_lists_select.
  split; intros Hp Hq; by apply (select_upward scorer threshold _ p q).
Qed.

Lemma selection_upward_closed_witness :
  let p19 := ScoredPost.wrap (post_by "alice" 19 19) in
  let p20 := ScoredPost.wrap (post_by "alice" 20 20) in
  (by_boosts p19 <= by_boosts p20)%Q
  ∧ In p19 (fst (threshold_lists by_boosts 90 twenty_posts []))
  ∧ In p20 (fst (threshold_lists by_boosts 90 twenty_posts [])).
Proof.
  intros p19 p20.
  assert (by_boosts p19 <= by_boosts p20)%Q as Hle by (vm_compute; discriminate).
  assert (In p19 (fst (threshold_lists by_boosts 90 twenty_posts []))) as H19
    by (vm_compute; auto).
  split; [exact Hle|]. split; [exact H19|].
  destruct (selection_upward_closed by_boosts 90 twenty_posts [] p19 p20 Hle) as [H _].
  apply H; [exact H19|].
  unfold twenty_posts. apply in_map_iff. exists 20%nat.
  split; [reflexivity | apply in_seq; lia].
Defined.





(** X10: when all items of a list of two or more have the same score,
    nothing of that list is retained under a threshold of 75 or more, such
    as 90, 95 and 98. *)
Theorem equal_scores_retain_nothing scorer threshold items others :
  (∀ p q, In p items → In q items → (scorer p == scorer q)%Q) →
  (2 ≤ length items)%nat →
  75 <= threshold →
  fst (threshold_lists scorer threshold items others) = []
  ∧ snd (threshold_lists scorer threshold others items) = [].
Proof.
  intros Heq Hlen Ht.
  assert (select scorer threshold items = []) as Hnone.
  { destruct (select scorer threshold items) as [|p rest] eqn:Hsel; [reflexivity|].
    exfalso.
    assert (In p (select scorer threshold items)) as Hp by (rewrite Hsel; by left).
    apply select_In_numerator in Hp as [Hin Hlt].
    assert (rank_numerator (map (ScoredPost.get_score scorer) items)
              (ScoredPost.get_score scorer p) <= Z.of_nat (length items) + 1) as Hnum.
    { unfold rank_numerator. cbv zeta.
      rewrite (count_none (fun x => Qltb x (ScoredPost.get_score scorer p))).
      - pose proof (count_bounds
          (fun x => Qle_bool x (ScoredPost.get_score scorer p))
          (map (ScoredPost.get_score scorer) items)) as [_ Hr].
        rewrite length_map in Hr. destruct (_ <? _); lia.
      - intros x (q & <- & Hq)%in_map_iff.
        destruct (Qltb _ _) eqn:Hb; [|reflexivity].
        apply Qltb_lt in Hb. unfold ScoredPost.get_score in Hb.
        rewrite (Heq q p Hq Hin) in Hb. by apply Qlt_irrefl in Hb. }
    nia. }
  rewrite !threshold_lists_select. cbn [fst snd]. by split.
Qed.

Lemma equal_scores_retain_nothing_witness :
  let items := map (fun n => ScoredPost.wrap (post_by "alice" n 0)) (seq 0 5) in
  (2 ≤ length items)%nat
  ∧ fst (threshold_lists by_boosts 90 items []) = [].
Proof.
  intros items. split; [simpl; lia|].
  destruct (equal_scores_retain_nothing by_boosts 90 items []) as [H _];
    [|simpl; lia|lia|exact H].
  intros p q (n & <- & _)%in_map_iff (m & <- & _)%in_map_iff. reflexivity.
Defined.





(** * The collector and the selection together *)

Lemma sublist_map_NoDup {A B} (f : A → B) (l k : list A) :
  l `sublist_of` k → List.NoDup (map f k) → List.NoDup (map f l).
Proof.
  induction 1 as [|x l k Hsub IH|x l k Hsub IH]; simpl; intros Hnd; [done| |].
  - apply NoDup_cons_iff in Hnd as [Hx Hnd]. constructor; [|by apply IH].
    intros (y & Hy & Hin)%in_map_iff. apply Hx. rewrite <- Hy.
    apply in_map. by apply (sublist_In l k).
  - apply NoDup_cons_iff in Hnd as [_ Hnd]. by apply IH.
Qed.

(** X12: what [run] retains keeps the guarantees of the collector: the two
    retained lists together hold no identity URL twice, and every retained
    record is the underlying post of an examined entry, is not by the
    viewer and was not boosted, favourited or bookmarked by the viewer. *)
Theorem digest_keeps_guarantees hours scorer threshold client mastodon_username :
  let '(threshold_posts, threshold_boosts) :=
    run_selection hours scorer threshold client mastodon_username in
  List.NoDup (map ScoredPost.url (threshold_posts ++ threshold_boosts))
  ∧ ∀ p, In p (threshold_posts ++ threshold_boosts) →
         (∃ entry, In entry (examined hours client mastodon_username)
                   ∧ underlying entry = ScoredPost.info p)
         ∧ acct (account (ScoredPost.info p)) ≠ mastodon_username
         ∧ reblogged (ScoredPost.info p) = false
         ∧ favourited (ScoredPost.info p) = false
         ∧ bookmarked (ScoredPost.info p) = false.
Proof.
  unfold run_selection, fetch_posts_and_boosts. cbv zeta.
  rewrite threshold_lists_select.
  destruct (collect_consistent hours client mastodon_username) as [_ Hnd Hpass].
  pose proof (collect_from_entries hours client mastodon_username) as Hfrom.
  set (st := collect hours client mastodon_username) in *.
  assert (select scorer threshold (posts st) ++ select scorer threshold (boosts st)
          `sublist_of` collected st) as Hsub
    by (apply sublist_app; apply select_sublist).
  split; [by apply (sublist_map_NoDup _ _ _ Hsub)|].
  intros p Hp. apply (sublist_In _ _ p Hsub) in Hp.
  split; [by apply (record_origin _ st)|].
  apply local_filters_spec, Hpass, Hp.
Qed.

Lemma digest_keeps_guarantees_witness :
  let p := ScoredPost.wrap alice_post in
  let run := run_selection 12 by_boosts 95 (unfiltered [[alice_post]]) "me" in
  In p (fst run ++ snd run)
  ∧ acct (account (ScoredPost.info p)) ≠ "me".
Proof.
  intros p run.
  assert (In p (fst run ++ snd run)) as Hin by (vm_compute; auto).
  split; [exact Hin|].
  pose proof (digest_keeps_guarantees 12 by_boosts 95 (unfiltered [[alice_post]]) "me")
    as H.
  fold run in H. destruct run as [tp tb]. destruct H as [_ H].
  apply (H p Hin).
Defined.

(** * Further properties of the configuration *)

Section MainMore.
Context {S : Type}.
Variable scorers : gmap string S.
Variable thresholds : gmap string Z.

Lemma missing_false value :
  missing value = false ↔ ∃ v, value = Some v ∧ v ≠ EmptyString.
Proof.
  unfold missing. destruct value as [v|].
  - rewrite String.eqb_neq. split; [eauto|]. by intros (? & [= <-] & ?).
  - split; [discriminate|]. by intros (? & [=] & _).
Qed.

Lemma parse_option_spec {A} (given : option A) choice dflt v :
  parse_option given choice dflt = Some v ↔
  (∀ g, given = Some g → choice g = true) ∧ v = default dflt given.
Proof.
  unfold parse_option. destruct given as [g|]; simpl.
  - destruct (choice g) eqn:Hc; split.
    + intros [= <-]. split; [|reflexivity]. by intros ? [= <-].
    + by intros [_ ->].
    + discriminate.
    + intros [Hg _]. specialize (Hg g eq_refl). congruence.
  - split; [intros [= <-]; by split | by intros [_ ->]].
Qed.

Lemma parse_option_None {A} (given : option A) choice dflt :
  parse_option given choice dflt = None ↔ ∃ g, given = Some g ∧ choice g = false.
Proof.
  unfold parse_option. destruct given as [g|]; simpl.
  - destruct (choice g) eqn:Hc; split; try discriminate; eauto.
    intros (? & [= <-] & ?). congruence.
  - split; [discriminate | by intros (? & [=] & _)].
Qed.

(** The parse succeeds exactly when [-n] is in range and the given names
    are known, and then returns the given values or the defaults. *)
Lemma parse_args_spec cl args :
  parse_args scorers thresholds cl = Some args ↔
  (∀ n, opt_n cl = Some n → 1 <= n < 25)
  ∧ (∀ k, opt_s cl = Some k → k ∈ dom scorers)
  ∧ (∀ k, opt_t cl = Some k → k ∈ dom thresholds)
  ∧ args = {| hours := default 12 (opt_n cl);
              scorer := default "SimpleWeighted"%string (opt_s cl);
              threshold := default "normal"%string (opt_t cl) |}.
Proof.
  unfold parse_args.
  destruct (parse_option (opt_n cl) _ _) as [h|] eqn:Hh; simpl.
  - destruct (parse_option (opt_s cl) _ _) as [s|] eqn:Hs; simpl.
    + destruct (parse_option (opt_t cl) _ _) as [t|] eqn:Ht; simpl.
      * apply parse_option_spec in Hh as [Hn ->], Hs as [Hk ->], Ht as [Hk' ->].
        split.
        -- intros [= <-]. split; [|split; [|split; [|reflexivity]]].
           ++ intros n Hgiven. specialize (Hn n Hgiven).
              apply andb_true_iff in Hn as [?%Z.leb_le ?%Z.ltb_lt]. lia.
           ++ intros k Hgiven. exact (bool_decide_eq_true_1 _ (Hk k Hgiven)).
           ++ intros k Hgiven. exact (bool_decide_eq_true_1 _ (Hk' k Hgiven)).
        -- by intros (_ & _ & _ & ->).
      * apply parse_option_None in Ht as (k & Hgiven & Hbad%bool_decide_eq_false_1).
        split; [discriminate|]. intros (_ & _ & Hk' & _). by destruct Hbad; apply Hk'.
    + apply parse_option_None in Hs as (k & Hgiven & Hbad%bool_decide_eq_false_1).
      split; [discriminate|]. intros (_ & Hk & _). by destruct Hbad; apply Hk.
  - apply parse_option_None in Hh as (n & Hgiven & Hbad).
    split; [discriminate|]. intros (Hn & _). specialize (Hn n Hgiven).
    apply andb_false_iff in Hbad as [?%Z.leb_gt | ?%Z.ltb_ge]; lia.
Qed.

Lemma main_Run cl environ h sc th token base user :
  main scorers thresholds cl environ = Run h sc th token base user ↔
  (∀ n, opt_n cl = Some n → 1 <= n < 25)
  ∧ (∀ k, opt_s cl = Some k → k ∈ dom scorers)
  ∧ (∀ k, opt_t cl = Some k → k ∈ dom thresholds)
  ∧ h = default 12 (opt_n cl)
  ∧ scorers !! default "SimpleWeighted"%string (opt_s cl) = Some sc
  ∧ thresholds !! default "normal"%string (opt_t cl) = Some th
  ∧ (environ !! "MASTODON_TOKEN"%string = Some token ∧ token ≠ EmptyString)
  ∧ (environ !! "MASTODON_BASE_URL"%string = Some base ∧ base ≠ EmptyString)
  ∧ (environ !! "MASTODON_USERNAME"%string = Some user ∧ user ≠ EmptyString).
Proof.
  unfold main.
  destruct (parse_args scorers thresholds cl) as [args|] eqn:Hparse.
  - apply parse_args_spec in Hparse as (Hn & Hs & Ht & ->). cbn [hours scorer threshold].
    assert ((default 12 (opt_n cl) =? 0) = false) as ->.
    { apply Z.eqb_neq. destruct (opt_n cl) as [n|]; simpl; [|lia].
      specialize (Hn n eq_refl). lia. }
    cbv zeta.
    destruct (environ !! "MASTODON_TOKEN"%string) as [tk|] eqn:Htk;
      destruct (environ !! "MASTODON_BASE_URL"%string) as [bs|] eqn:Hbs;
      destruct (environ !! "MASTODON_USERNAME"%string) as [us|] eqn:Hus;
      unfold missing;
      try destruct (String.eqb_spec tk EmptyString);
      try destruct (String.eqb_spec bs EmptyString);
      try destruct (String.eqb_spec us EmptyString);
      try (split; [discriminate | intros (_ & _ & _ & _ & _ & _ & [? ?] & [? ?] & [? ?]);
                                  congruence]).
    destruct (scorers !! default "SimpleWeighted"%string (opt_s cl)) as [sc'|];
      [|split; [discriminate | intros (_ & _ & _ & _ & ? & _); congruence]].
    destruct (thresholds !! default "normal"%string (opt_t cl)) as [th'|];
      [|split; [discriminate | intros (_ & _ & _ & _ & _ & ? & _); congruence]].
    cbn [default]. split.
    + intros [= <- <- <- <- <- <-].
      refine (conj Hn (conj Hs (conj Ht _))). repeat split; auto.
    + intros (_ & _ & _ & -> & [= ->] & [= ->] & [[= ->] _] & [[= ->] _] & [[= ->] _]).
      reflexivity.
  - split; [discriminate|]. intros (Hn & Hs & Ht & _). exfalso.
    assert (parse_args scorers thresholds cl
            = Some {| hours := default 12 (opt_n cl);
                      scorer := default "SimpleWeighted"%string (opt_s cl);
                      threshold := default "normal"%string (opt_t cl) |}) as Hok
      by (by apply parse_args_spec).
    congruence.
Qed.
End MainMore.

(** X13: [run] is called exactly when the [-n] value, if given, lies in 1
    to 24, the given names are keys of their registries, the names in force
    (given or default) have an entry, and the three environment variables
    are set and not empty; it is then called with the hours given or 12,
    the registry entries of the names in force, and the three values of the
    environment. *)
Theorem run_called_iff_configuration_valid {S : Type} (scorers : gmap string S)
    (thresholds : gmap string Z) (cl : CommandLine) (environ : gmap string string)
    (h : Z) (sc : S) (th : Z) (token base user : string) :
  main scorers thresholds cl environ = Run h sc th token base user ↔
  (∀ n, opt_n cl = Some n → 1 <= n < 25)
  ∧ (∀ k, opt_s cl = Some k → k ∈ dom scorers)
  ∧ (∀ k, opt_t cl = Some k → k ∈ dom thresholds)
  ∧ h = default 12 (opt_n cl)
  ∧ scorers !! default "SimpleWeighted"%string (opt_s cl) = Some sc
  ∧ thresholds !! default "normal"%string (opt_t cl) = Some th
  ∧ (environ !! "MASTODON_TOKEN"%string = Some token ∧ token ≠ EmptyString)
  ∧ (environ !! "MASTODON_BASE_URL"%string = Some base ∧ base ≠ EmptyString)
  ∧ (environ !! "MASTODON_USERNAME"%string = Some user ∧ user ≠ EmptyString).
Proof. apply main_Run. Qed.

(** With [-n 6 -t strict] and the three variables set, [run] is called for
    6 hours with the default scorer and the percentile 98. *)
Lemma run_called_iff_configuration_valid_witness :
  main two_scorers get_thresholds
    (mkCommandLine (Some 6) None (Some "strict"%string)) full_environment
  = Run 6 by_boosts 98 "secret" "https://example.social" "me".
Proof.
  apply run_called_iff_configuration_valid.
  split; [intros n [= <-]; lia|].
  split; [intros k [=]|].
  split; [intros k [= <-]; apply elem_of_dom; eexists; vm_compute; reflexivity|].
  repeat split; try reflexivity; discriminate.
Defined.

(** X14: the branch that prints the help text is dead: the parser only lets
    hours from 1 to 24 through, so [args.hours] is never zero, and the block
    always ends either in a fatal error or in the call of [run]. *)
Theorem help_branch_never_taken {S : Type} (scorers : gmap string S)
    (thresholds : gmap string Z) (cl : CommandLine) (environ : gmap string string) :
  fatal (main scorers thresholds cl environ) = true
  ∨ network_activity (main scorers thresholds cl environ) = true.
Proof.
  unfold main.
  destruct (parse_args scorers thresholds cl) as [args|] eqn:Hparse; [|by left].
  apply parse_args_Some in Hparse as (Hh & _).
  destruct (hours args =? 0) eqn:H0; [apply Z.eqb_eq in H0; lia|].
  cbv zeta.
  repeat match goal with
         | |- context [if ?b then _ else _] => destruct b
         | |- context [match ?o with Some _ => _ | None => _ end] => destruct o
         end; auto.
Qed.

(** X15: after a successful parse, the message names the first variable
    that is missing, in the order token, base URL, username. *)
Theorem first_missing_variable_reported {S : Type} (scorers : gmap string S)
    (thresholds : gmap string Z) (cl : CommandLine) (environ : gmap string string)
    (args : Namespace) :
  parse_args scorers thresholds cl = Some args →
  let token := environ !! "MASTODON_TOKEN"%string in
  let base := environ !! "MASTODON_BASE_URL"%string in
  let user := environ !! "MASTODON_USERNAME"%string in
  (missing token = true →
   main scorers thresholds cl environ
   = SysExit "Missing environment variable: MASTODON_TOKEN")
  ∧ (missing token = false → missing base = true →
     main scorers thresholds cl environ
     = SysExit "Missing environment variable: MASTODON_BASE_URL")
  ∧ (missing token = false → missing base = false → missing user = true →
     main scorers thresholds cl environ
     = SysExit "Missing environment variable: MASTODON_USERNAME").
Proof.
  intros Hparse token base user. unfold main. rewrite Hparse.
  apply parse_args_Some in Hparse as (Hh & _).
  destruct (hours args =? 0) eqn:H0; [apply Z.eqb_eq in H0; lia|].
  cbv zeta. fold token base user.
  split; [by intros ->|]. split; [by intros -> ->|]. by intros -> -> ->.
Qed.

Lemma first_missing_variable_reported_witness :
  parse_args two_scorers get_thresholds (mkCommandLine None None None)
  = Some {| hours := 12; scorer := "SimpleWeighted"; threshold := "normal" |}
  ∧ main two_scorers get_thresholds (mkCommandLine None None None) no_username
    = SysExit "Missing environment variable: MASTODON_USERNAME".
Proof.
  split; [reflexivity|].
  destruct (first_missing_variable_reported two_scorers get_thresholds
              (mkCommandLine None None None) no_username
              {| hours := 12; scorer := "SimpleWeighted"; threshold := "normal" |}
              eq_refl) as (_ & _ & H).
  apply H; reflexivity.
Defined.

(** X16: a registry subscript fails only for a default name: a name given on
    the command line has passed the parser's [choices] and has an entry. *)
Theorem lookup_fails_only_for_default {S : Type} (scorers : gmap string S)
    (thresholds : gmap string Z) (cl : CommandLine) (environ : gmap string string)
    (key : string) :
  main scorers thresholds cl environ = KeyError key →
  (opt_s cl = None ∧ key = "SimpleWeighted"%string ∧ key ∉ dom scorers)
  ∨ (opt_t cl = None ∧ key = "normal"%string ∧ key ∉ dom thresholds).
Proof.
  unfold main.
  destruct (parse_args scorers thresholds cl) as [args|] eqn:Hparse; [|discriminate].
  apply parse_args_Some in Hparse as (Hh & Hs & Ht).
  destruct (hours args =? 0); [discriminate|]. cbv zeta.
  destruct (missing _); [discriminate|].
  destruct (missing _); [discriminate|].
  destruct (missing _); [discriminate|].
  destruct (scorers !! scorer args) as [sc|] eqn:Hsc.
  - destruct (thresholds !! threshold args) as [th|] eqn:Hth; [discriminate|].
    intros [= <-]. right. apply not_elem_of_dom in Hth.
    destruct Ht as [[? ?]|[_ ?]]; [auto | done].
  - intros [= <-]. left. apply not_elem_of_dom in Hsc.
    destruct Hs as [[? ?]|[_ ?]]; [auto | done].
Qed.

Lemma lookup_fails_only_for_default_witness :
  main (∅ : gmap string nat) get_thresholds (mkCommandLine None None None)
    full_environment
  = KeyError "SimpleWeighted"
  ∧ "SimpleWeighted"%string ∉ dom (∅ : gmap string nat).
Proof.
  assert (main (∅ : gmap string nat) get_thresholds (mkCommandLine None None None)
            full_environment = KeyError "SimpleWeighted") as Hmain
    by (vm_compute; reflexivity).
  split; [exact Hmain|].
  destruct (lookup_fails_only_for_default _ _ _ _ _ Hmain)
    as [(_ & _ & H)|(_ & Habs & _)]; [exact H | discriminate Habs].
Defined.

(** * The document *)

Lemma append_nil_r (s : string) : s +:+ EmptyString = s.
Proof.
  induction s as [|c s IH]; [reflexivity|].
  change (String c (s +:+ EmptyString) = String c s). by rewrite IH.
Qed.

Lemma append_assoc (s t u : string) : (s +:+ t) +:+ u = s +:+ t +:+ u.
Proof.
  induction s as [|c s IH]; [reflexivity|].
  change (String c ((s +:+ t) +:+ u) = String c (s +:+ t +:+ u)). by rewrite IH.
Qed.

Lemma occurs_here piece : occurs piece piece.
Proof. exists EmptyString, EmptyString. by rewrite append_nil_r. Qed.

Lemma occurs_append_l piece s t : occurs piece t → occurs piece (s +:+ t).
Proof.
  intros (before & after & ->). exists (s +:+ before), after.
  by rewrite append_assoc.
Qed.

Lemma occurs_append_r piece s t : occurs piece s → occurs piece (s +:+ t).
Proof.
  intros (before & after & ->). exists before, (after +:+ t).
  by rewrite !append_assoc.
Qed.

Section DocumentFacts.
Variable get_home_url : ScoredPost.t → string → string.
Variable mastodon_base_url : string.

Local Abbreviation block := (post_block get_home_url mastodon_base_url).
Local Abbreviation blocks := (content get_home_url mastodon_base_url).

Lemma add_blocks_content text selected :
  add_blocks get_home_url mastodon_base_url text selected = text +:+ blocks selected.
Proof.
  unfold content, add_blocks. revert text.
  induction selected as [|post selected IH]; intros text; cbn [fold_left].
  - by rewrite append_nil_r.
  - rewrite IH, (IH (EmptyString +:+ block post)), append_assoc. reflexivity.
Qed.

Lemma content_cons post selected :
  blocks (post :: selected) = block post +:+ blocks selected.
Proof.
  unfold content at 1. unfold add_blocks. cbn [fold_left].
  apply add_blocks_content.
Qed.

Lemma content_app selected selected' :
  blocks (selected ++ selected') = blocks selected +:+ blocks selected'.
Proof.
  induction selected as [|post selected IH]; [reflexivity|].
  simpl. by rewrite !content_cons, IH, append_assoc.
Qed.

Lemma content_occurs post selected : In post selected → occurs (block post) (blocks selected).
Proof.
  intros (l1 & l2 & ->)%in_split. rewrite content_app, content_cons.
  apply occurs_append_l, occurs_append_r, occurs_here.
Qed.
End DocumentFacts.

(** X17: the blocks of a list are laid out one per item and in the order of
    the list: the text for a list put together from two is the text for the
    first followed by the text for the second, and the text for one item is
    its block. *)
Theorem content_in_list_order get_home_url mastodon_base_url selected selected' post :
  content get_home_url mastodon_base_url (selected ++ selected')
  = content get_home_url mastodon_base_url selected
    +:+ content get_home_url mastodon_base_url selected'
  ∧ content get_home_url mastodon_base_url [post]
    = post_block get_home_url mastodon_base_url post.
Proof.
  split; [apply content_app|].
  rewrite content_cons. apply append_nil_r.
Qed.

(** X18: every record that [run] retains, post or boost, has its block,
    with its two links and its embed frame, in the document that [run]
    writes. *)
Theorem retained_records_in_document get_home_url mastodon_base_url hours scorer
    threshold mst mastodon_username p :
  let '(threshold_posts, threshold_boosts) :=
    run_selection hours scorer threshold mst mastodon_username in
  In p (threshold_posts ++ threshold_boosts) →
  occurs (post_block get_home_url mastodon_base_url p)
    (run_document get_home_url mastodon_base_url hours scorer threshold mst
       mastodon_username).
Proof.
  unfold run_document.
  destruct (run_selection hours scorer threshold mst mastodon_username) as [tp tb].
  intros [Hp|Hb]%in_app_iff; unfold output_html.
  - do 7 apply occurs_append_l. apply occurs_append_r. by apply content_occurs.
  - do 9 apply occurs_append_l. apply occurs_append_r. by apply content_occurs.
Qed.

Lemma retained_records_in_document_witness :
  let p := ScoredPost.wrap alice_post in
  In p (fst (run_selection 12 by_boosts 95 (unfiltered [[alice_post]]) "me")
        ++ snd (run_selection 12 by_boosts 95 (unfiltered [[alice_post]]) "me"))
  ∧ occurs (post_block sample_home_url "https://example.social" p)
      (run_document sample_home_url "https://example.social" 12 by_boosts 95
         (unfiltered [[alice_post]]) "me").
Proof.
  intros p.
  assert (In p (fst (run_selection 12 by_boosts 95 (unfiltered [[alice_post]]) "me")
                ++ snd (run_selection 12 by_boosts 95 (unfiltered [[alice_post]]) "me")))
    as Hin by (vm_compute; auto).
  split; [exact Hin|].
  pose proof (retained_records_in_document sample_home_url "https://example.social"
                12 by_boosts 95 (unfiltered [[alice_post]]) "me" p) as H.
  destruct (run_selection 12 by_boosts 95 (unfiltered [[alice_post]]) "me") as [tp tb].
  exact (H Hin).
Defined.

(** * Selection and the order of the scores *)

Lemma count_ext_in {A} (f : A → Q) (test test' : Q → bool) l :
  (∀ x, In x l → test (f x) = test' (f x)) →
  count test (map f l) = count test' (map f l).
Proof.
  intros Hext. rewrite !count_map. f_equal. f_equal. by apply filter_ext_in.
Qed.

Lemma count_map2 {A} (f g : A → Q) (test test' : Q → bool) l :
  (∀ x, In x l → test (f x) = test' (g x)) →
  count test (map f l) = count test' (map g l).
Proof.
  intros Hext. rewrite !count_map. f_equal. f_equal. by apply filter_ext_in.
Qed.

Lemma percentileofscore_counts a a' s s' :
  length a = length a' →
  count (fun x => Qltb x s) a = count (fun x => Qltb x s') a' →
  count (fun x => Qle_bool x s) a = count (fun x => Qle_bool x s') a' →
  percentileofscore a s = percentileofscore a' s'.
Proof. intros Hn Hl Hr. unfold percentileofscore. by rewrite Hn, Hl, Hr. Qed.

Lemma select_order_only scorer scorer' threshold items :
  (∀ p q, In p items → In q items →
          ((scorer p < scorer q)%Q ↔ (scorer' p < scorer' q)%Q)) →
  select scorer threshold items = select scorer' threshold items.
Proof.
  intros Hsame. unfold select. cbv zeta. apply filter_ext_in. intros p Hp.
  f_equal. apply percentileofscore_counts.
  - by rewrite !length_map.
  - apply count_map2. intros q Hq. unfold ScoredPost.get_score.
    destruct (Qltb (scorer q) (scorer p)) eqn:H1, (Qltb (scorer' q) (scorer' p)) eqn:H2;
      try reflexivity.
    + apply Qltb_lt, (Hsame q p Hq Hp), Qltb_lt in H1. congruence.
    + apply Qltb_lt, (Hsame q p Hq Hp), Qltb_lt in H2. congruence.
  - apply count_map2. intros q Hq. unfold ScoredPost.get_score.
    assert (Qltb (scorer p) (scorer q) = Qltb (scorer' p) (scorer' q)) as Hlt.
    { destruct (Qltb (scorer p) (scorer q)) eqn:H1, (Qltb (scorer' p) (scorer' q)) eqn:H2;
        try reflexivity.
      - apply Qltb_lt, (Hsame p q Hp Hq), Qltb_lt in H1. congruence.
      - apply Qltb_lt, (Hsame p q Hp Hq), Qltb_lt in H2. congruence. }
    unfold Qltb in Hlt.
    destruct (Qle_bool (scorer q) (scorer p)), (Qle_bool (scorer' q) (scorer' p));
      done.
Qed.

(** X19: what is retained depends on how the scores of a list compare with
    each other, not on their values: two scorers that order the items of a
    list in the same way retain the same items of it. *)
Theorem selection_depends_on_order_only scorer scorer' threshold posts boosts :
  (∀ p q, In p (posts ++ boosts) → In q (posts ++ boosts) →
          ((scorer p < scorer q)%Q ↔ (scorer' p < scorer' q)%Q)) →
  threshold_lists scorer threshold posts boosts
  = threshold_lists scorer' threshold posts boosts.
Proof.
  intros Hsame. rewrite !threshold_lists_select. f_equal.
  - apply select_order_only. intros p q Hp Hq.
    apply Hsame; apply in_or_app; by left.
  - apply select_order_only. intros p q Hp Hq.
    apply Hsame; apply in_or_app; by right.
Qed.

(** Doubling every score changes nothing. *)
Lemma selection_depends_on_order_only_witness :
  threshold_lists by_boosts 90 twenty_posts []
  = threshold_lists by_boosts_twice 90 twenty_posts [].
Proof.
  apply selection_depends_on_order_only. intros p q _ _.
  unfold by_boosts, by_boosts_twice.
  set (x := reblogs_count (ScoredPost.info p)).
  set (y := reblogs_count (ScoredPost.info q)).
  unfold Qlt. simpl. rewrite !Z.mul_1_r.
  destruct x, y; simpl; split; intros H; try done; lia.
Defined.



